(** * Vendor-name canonicalisation: a model of [docs/analyze_vendors.py]

    The script normalises the free-text description of a bank transaction
    into a base vendor key ([normalize_vendor_base]), groups the distinct
    descriptions by that key ([extract_vendor_patterns], [find_groups]) and
    counts the transactions per key (the loop of [analyze_vendor_data]).

    Text.  A Python [str] is modelled as a list of characters.  The code
    of an [ascii] below 128 is the code point.  The character of code 255
    stands for U+212A KELVIN SIGN: it is its own upper case and its lower
    case is the ASCII letter k, so it is the one character here on which
    [c.lower().upper()] differs from [c.upper()].  Any other [ascii] whose
    top bit is set stands for a code point above 127 and below U+212A that
    has no case mapping, is not whitespace and is not a decimal digit.
    The rest of the case tables of Unicode is not part of this
    development.

    Regular expressions.  The fourteen patterns of the script are sequences
    of anchors and of greedy repetitions of one-character sets, so the
    regex model has exactly these: [re_match] is a backtracking matcher in
    the priority order of Python's [re], and [Re.sub] replaces the leftmost
    non-overlapping matches.  No flag is set in the source, so [^] matches
    at index 0 only, [$] at the end or before a final newline, and [.]
    anything but a newline. *)

From Stdlib Require Import List Ascii Arith Lia Bool.
From Stdlib Require String.
Import String.StringSyntax.
From Stdlib Require Import Sorted Permutation.
Import ListNotations.

Set Implicit Arguments.

Definition str := list ascii.
Coercion String.list_ascii_of_string : String.string >-> list.

Open Scope string_scope.
Open Scope nat_scope.
Open Scope list_scope.

(** ** Characters *)

Module Char.

Definition code (a : ascii) : nat := nat_of_ascii a.

Definition between (lo hi a : ascii) : bool :=
  (code lo <=? code a) && (code a <=? code hi).

(** [str.isspace] on one character, which is also what [\s] matches:
    TAB, LF, VT, FF, CR, the four separators FS GS RS US, and space. *)
Definition isspace (a : ascii) : bool :=
  ((9 <=? code a) && (code a <=? 13)) || ((28 <=? code a) && (code a <=? 32)).

(** What [\d] matches. *)
Definition isdigit (a : ascii) : bool := between "0" "9" a.

(** The ranges [a-z] and [A-Z], the letters that change case within
    ASCII (not [str.islower] and [str.isupper]). *)
Definition islower (a : ascii) : bool := between "a" "z" a.
Definition isupper (a : ascii) : bool := between "A" "Z" a.

Definition upper (a : ascii) : ascii :=
  if islower a then ascii_of_nat (code a - 32) else a.

(** U+212A KELVIN SIGN, see the head of the file. *)
Definition kelvin : ascii := "255"%char.

Definition lower (a : ascii) : ascii :=
  if isupper a then ascii_of_nat (code a + 32)
  else if Ascii.eqb a kelvin then "k"%char
  else a.

Definition newline : ascii := "010"%char.

End Char.

(** ** The string methods the script calls *)

Definition upper (s : str) : str := map Char.upper s.
Definition lower (s : str) : str := map Char.lower s.

Fixpoint lstrip (s : str) : str :=
  match s with
  | a :: s' => if Char.isspace a then lstrip s' else s
  | [] => []
  end.

Definition rstrip (s : str) : str := rev (lstrip (rev s)).

(** [s.strip()] with no argument. *)
Definition strip (s : str) : str := rstrip (lstrip s).

(** Comparison of two [str] by code points, as [<] on Python strings. *)
Fixpoint str_ltb (s t : str) : bool :=
  match s, t with
  | _, [] => false
  | [], _ :: _ => true
  | a :: s', b :: t' =>
      if Char.code a <? Char.code b then true
      else if Char.code b <? Char.code a then false
      else str_ltb s' t'
  end.

Definition str_leb (s t : str) : bool := negb (str_ltb t s).

Fixpoint str_eqb (s t : str) : bool :=
  match s, t with
  | [], [] => true
  | a :: s', b :: t' => Ascii.eqb a b && str_eqb s' t'
  | _, _ => false
  end.

(** ** Regular expressions *)

Module Re.

(** A set of characters: one literal, a class escape, a bracket of
    ranges, or the dot. *)
Inductive cset : Type :=
| Lit (a : ascii)                       (* a literal, also an escaped one *)
| Space                                 (* \s *)
| Digit                                 (* \d *)
| Ranges (rs : list (ascii * ascii))    (* [A-Z], [A-Z0-9] *)
| Dot.                                  (* . *)

Definition cmem (c : cset) (a : ascii) : bool :=
  match c with
  | Lit b => Ascii.eqb a b
  | Space => Char.isspace a
  | Digit => Char.isdigit a
  | Ranges rs => existsb (fun r => Char.between (fst r) (snd r) a) rs
  | Dot => negb (Ascii.eqb a Char.newline)
  end.

(** One element of a pattern.  [Rep c lo hi] is [c{lo,hi}], greedy, with
    [hi = None] for no upper bound. *)
Inductive item : Type :=
| Bol                                   (* ^ *)
| Eol                                   (* $ *)
| Rep (c : cset) (lo : nat) (hi : option nat).

Definition regex := list item.

Definition one (c : cset) : item := Rep c 1 (Some 1).
Definition opt (c : cset) : item := Rep c 0 (Some 1).
Definition star (c : cset) : item := Rep c 0 None.
Definition plus (c : cset) : item := Rep c 1 None.
Definition lit (s : str) : regex := map (fun a => one (Lit a)) s.

(** Where [$] matches: at the end, or before a newline that ends the
    string. *)
Definition at_end (s : str) : bool :=
  match s with
  | [] => true
  | [a] => Ascii.eqb a Char.newline
  | _ => false
  end.

Definition may_take (hi : option nat) : bool :=
  match hi with Some 0 => false | _ => true end.

(** The greedy repetition: take one more character when allowed, and
    only when the rest of the pattern fails after it, stop here (if [lo]
    characters were taken) and let the rest [k] match.  [bos] says that
    the position is index 0 of the subject; the result is the number of
    characters the match takes from [s]. *)
Fixpoint greedy (c : cset) (k : bool -> str -> option nat)
         (lo : nat) (hi : option nat) (bos : bool) (s : str) : option nat :=
  let stop := if lo =? 0 then k bos s else None in
  match s with
  | a :: s' =>
      if cmem c a && may_take hi then
        match greedy c k (pred lo) (option_map pred hi) false s' with
        | Some n => Some (S n)
        | None => stop
        end
      else stop
  | [] => stop
  end.

(** [re_match r bos s]: the first match, in backtracking order, of [r]
    at the head of [s]; its length. *)
Fixpoint re_match (r : regex) (bos : bool) (s : str) : option nat :=
  match r with
  | [] => Some 0
  | Bol :: r' => if bos then re_match r' bos s else None
  | Eol :: r' => if at_end s then re_match r' bos s else None
  | Rep c lo hi :: r' => greedy c (re_match r') lo hi bos s
  end.

(** The scan of [re.sub(r, repl, s)]: at each index try a match; on a
    match write [repl] and resume behind it ([skip] counts the matched
    characters still to drop), otherwise copy the character.  An empty
    match writes [repl] and copies the character. *)
Fixpoint sub_go (r : regex) (repl : str) (bos : bool) (skip : nat)
         (s : str) : str :=
  match skip, s with
  | S k, _ :: s' => sub_go r repl false k s'
  | S _, [] => []
  | 0, [] =>
      match re_match r bos [] with
      | Some _ => repl
      | None => []
      end
  | 0, a :: s' =>
      match re_match r bos s with
      | Some (S n) => repl ++ sub_go r repl false n s'
      | Some 0 => repl ++ a :: sub_go r repl false 0 s'
      | None => a :: sub_go r repl false 0 s'
      end
  end.

Definition sub (r : regex) (repl : str) (s : str) : str :=
  sub_go r repl true 0 s.

(** [re.search(r, s)]: index and length of the leftmost match. *)
Fixpoint search_go (r : regex) (bos : bool) (i : nat) (s : str)
  : option (nat * nat) :=
  match re_match r bos s with
  | Some n => Some (i, n)
  | None =>
      match s with
      | [] => None
      | _ :: s' => search_go r false (S i) s'
      end
  end.

Definition search (r : regex) (s : str) : option (nat * nat) :=
  search_go r true 0 s.

End Re.

(** ** The patterns of [normalize_vendor_base], in source order *)

Module Pat.
Import Re.

(** [\s*#?\d{4,8}$] *)
Definition store_number : regex :=
  [star Space; opt (Lit "#"); Rep Digit 4 (Some 8); Eol].

(** [\s+#\d+] *)
Definition hash_number : regex :=
  [plus Space; one (Lit "#"); plus Digit].

(** [\s+[A-Z]\d{5}$] *)
Definition location_code : regex :=
  [plus Space; one (Ranges [("A", "Z")]); Rep Digit 5 (Some 5); Eol]%char.

(** [^SQ \*] *)
Definition sq : regex := Bol :: lit "SQ *".

(** [AMAZON MKTPL?\*[A-Z0-9]+] *)
Definition amazon : regex :=
  lit "AMAZON MKTP"
    ++ [opt (Lit "L"); one (Lit "*"); plus (Ranges [("A", "Z"); ("0", "9")]%char)].

(** [^TST\*] *)
Definition tst : regex := Bol :: lit "TST*".

(** [^SP ] *)
Definition sp : regex := Bol :: lit "SP ".

(** [^FSP\*] *)
Definition fsp : regex := Bol :: lit "FSP*".

(** [^PAR\*] *)
Definition par : regex := Bol :: lit "PAR*".

(** [\s+OVERLAND PARK.*$] *)
Definition overland_park : regex :=
  plus Space :: lit "OVERLAND PARK" ++ [star Dot; Eol].

(** [\s+LEAWOOD.*$] *)
Definition leawood : regex :=
  plus Space :: lit "LEAWOOD" ++ [star Dot; Eol].

(** [\s+PRAIRIE FIRE.*$] *)
Definition prairie_fire : regex :=
  plus Space :: lit "PRAIRIE FIRE" ++ [star Dot; Eol].

(** [\s+POS$] *)
Definition pos : regex := plus Space :: lit "POS" ++ [Eol].

(** [\s+OUTSIDE$] *)
Definition outside : regex := plus Space :: lit "OUTSIDE" ++ [Eol].

End Pat.

(** ** [normalize_vendor_base] *)

Definition normalize_vendor_base (vendor : str) : str :=
  let v := upper vendor in
  let v := Re.sub Pat.store_number "" v in
  let v := Re.sub Pat.hash_number "" v in
  let v := Re.sub Pat.location_code "" v in
  let v := Re.sub Pat.sq "" v in
  let v := Re.sub Pat.amazon "AMAZON" v in
  let v := Re.sub Pat.tst "" v in
  let v := Re.sub Pat.sp "" v in
  let v := Re.sub Pat.fsp "" v in
  let v := Re.sub Pat.par "" v in
  let v := Re.sub Pat.overland_park "" v in
  let v := Re.sub Pat.leawood "" v in
  let v := Re.sub Pat.prairie_fire "" v in
  let v := Re.sub Pat.pos "" v in
  let v := Re.sub Pat.outside "" v in
  let v := strip v in
  v.

(** The same fourteen substitutions as a table, for statements about the
    single steps: the kind of the rule, its pattern, its replacement. *)
Inductive rule_kind : Type :=
| StoreCode | Prefix | Marketplace | Location | Suffix.

Record rule : Type := { kind : rule_kind; pattern : Re.regex; repl : str }.

Definition rules : list rule :=
  [ {| kind := StoreCode;   pattern := Pat.store_number;  repl := "" |};
    {| kind := StoreCode;   pattern := Pat.hash_number;   repl := "" |};
    {| kind := StoreCode;   pattern := Pat.location_code; repl := "" |};
    {| kind := Prefix;      pattern := Pat.sq;            repl := "" |};
    {| kind := Marketplace; pattern := Pat.amazon;        repl := "AMAZON" |};
    {| kind := Prefix;      pattern := Pat.tst;           repl := "" |};
    {| kind := Prefix;      pattern := Pat.sp;            repl := "" |};
    {| kind := Prefix;      pattern := Pat.fsp;           repl := "" |};
    {| kind := Prefix;      pattern := Pat.par;           repl := "" |};
    {| kind := Location;    pattern := Pat.overland_park; repl := "" |};
    {| kind := Location;    pattern := Pat.leawood;       repl := "" |};
    {| kind := Location;    pattern := Pat.prairie_fire;  repl := "" |};
    {| kind := Suffix;      pattern := Pat.pos;           repl := "" |};
    {| kind := Suffix;      pattern := Pat.outside;       repl := "" |} ].

Definition apply_rule (v : str) (r : rule) : str :=
  Re.sub (pattern r) (repl r) v.

Definition apply_rules (rs : list rule) (v : str) : str :=
  fold_left apply_rule rs v.

(** The run of the rules with the string before and after each of them. *)
Fixpoint trace (rs : list rule) (v : str) : list (rule * str * str) :=
  match rs with
  | [] => []
  | r :: rs' => (r, v, apply_rule v r) :: trace rs' (apply_rule v r)
  end.

Definition is_prefix_rule (r : rule) : bool :=
  match kind r with Prefix => true | _ => false end.

(** The prefix rules that rewrote the string in the call on [vendor]. *)
Definition prefix_rules_fired (vendor : str) : list (rule * str * str) :=
  filter (fun e => is_prefix_rule (fst (fst e))
                   && negb (str_eqb (snd (fst e)) (snd e)))
         (trace rules (upper vendor)).

(** ** Dictionaries

    A [dict] keeps its keys in insertion order and [find_groups] iterates
    over [items()], so a dictionary is the list of its items in that
    order. *)

Module Dict.

Definition t (V : Type) : Type := list (str * V).

Fixpoint get {V : Type} (k : str) (d : t V) : option V :=
  match d with
  | [] => None
  | (k', v) :: d' => if str_eqb k' k then Some v else get k d'
  end.

(** [d[k] = f(d[k])] on a [defaultdict] whose factory yields [dflt]: a
    missing key is entered last. *)
Fixpoint update {V : Type} (dflt : V) (f : V -> V) (k : str) (d : t V) : t V :=
  match d with
  | [] => [(k, f dflt)]
  | (k', v) :: d' =>
      if str_eqb k' k then (k', f v) :: d' else (k', v) :: update dflt f k d'
  end.

End Dict.

(** ** Sorting

    [sorted] is stable; with [reverse=True] it still keeps equal elements
    in their order.  The model is the stable insertion sort: [before y x]
    says that [y] has to come strictly before [x]. *)

Section Sorting.
Variable A : Type.
Variable before : A -> A -> bool.

Fixpoint insert (x : A) (l : list A) : list A :=
  match l with
  | [] => [x]
  | y :: l' => if before y x then y :: insert x l' else x :: l
  end.

Fixpoint insertion_sort (l : list A) : list A :=
  match l with
  | [] => []
  | x :: l' => insert x (insertion_sort l')
  end.
End Sorting.

(** [sorted(variants)] on strings. *)
Definition sorted_strs (variants : list str) : list str :=
  insertion_sort str_ltb variants.

Definition group : Type := (str * list str)%type.

(** [sorted(groups, key=lambda x: len(x[1]), reverse=True)] *)
Definition sorted_by_len_desc (groups : list group) : list group :=
  insertion_sort (fun y x => length (snd x) <? length (snd y)) groups.

(** ** Grouping *)

Definition extract_vendor_patterns (vendors : list str) : Dict.t (list str) :=
  fold_left
    (fun patterns vendor =>
       let base := normalize_vendor_base vendor in
       Dict.update [] (fun l => l ++ [vendor]) base patterns)
    vendors [].

(** The loop of [find_groups], before the final sort. *)
Fixpoint collect_groups (items : list group) : list group :=
  match items with
  | [] => []
  | (base, variants) :: rest =>
      if 1 <? length variants
      then (base, sorted_strs variants) :: collect_groups rest
      else collect_groups rest
  end.

Definition find_groups (patterns : Dict.t (list str)) : list group :=
  sorted_by_len_desc (collect_groups patterns).

(** ** The transactions and the two passes of [analyze_vendor_data]

    A row of [csv.DictReader] maps column names to values; a value is a
    string, or [None] where the row was short. *)

Inductive value : Type :=
| VNone
| VStr (s : str).

Definition row : Type := Dict.t value.

(** Truth value of [t.get('Description')]. *)
Definition has_description (t : row) : bool :=
  match Dict.get "Description" t with
  | Some (VStr (_ :: _)) => true
  | _ => false
  end.

Fixpoint dedup (l : list str) : list str :=
  match l with
  | [] => []
  | x :: l' => x :: filter (fun y => negb (str_eqb x y)) (dedup l')
  end.

(** Line 92: the distinct descriptions: [set] fixes no order, the model
    keeps the order of first occurence. *)
Definition unique_vendors (transactions : list row) : list str :=
  dedup
    (flat_map
       (fun t => if has_description t
                 then match Dict.get "Description" t with
                      | Some (VStr s) => [s]
                      | _ => []
                      end
                 else [])
       transactions).

(** [t.get('Description', '')] *)
Definition description_or_empty (t : row) : value :=
  match Dict.get "Description" t with
  | Some v => v
  | None => VStr ""
  end.

(** Lines 116-120: the count per base name.  [None] is the
    [AttributeError] of [vendor.upper()] on a [None] description. *)
Fixpoint count_merchants (merchant_counts : Dict.t nat) (transactions : list row)
  : option (Dict.t nat) :=
  match transactions with
  | [] => Some merchant_counts
  | t :: rest =>
      match description_or_empty t with
      | VStr vendor =>
          let base := normalize_vendor_base vendor in
          count_merchants (Dict.update 0 S base merchant_counts) rest
      | VNone => None
      end
  end.

Definition merchant_counts (transactions : list row) : option (Dict.t nat) :=
  count_merchants [] transactions.

(** The total of all counters. *)
Definition total_count (d : Dict.t nat) : nat :=
  fold_right (fun e n => snd e + n) 0 d.

(** ** The report of [analyze_vendor_data]

    The function prints; the model keeps what is printed, not its layout:
    the two numbers of the header, an entry per group shown and an entry
    per merchant shown. *)

(** [sorted(merchant_counts.items(), key=lambda x: x[1], reverse=True)] *)
Definition sorted_by_count_desc (items : list (str * nat)) : list (str * nat) :=
  insertion_sort (fun y x => snd x <? snd y) items.

(** Line 122: [...[:50]] *)
Definition top_merchants (merchant_counts : Dict.t nat) : list (str * nat) :=
  firstn 50 (sorted_by_count_desc merchant_counts).

(** [enumerate(l, 1)] *)
Definition enumerate1 {A : Type} (l : list A) : list (nat * A) :=
  combine (seq 1 (length l)) l.

(** Lines 103-108: the rank, the base name, the number of variations, the
    variants listed, and the number of the line "... and K more" when
    there is one. *)
Record group_entry : Type :=
  { g_rank : nat; g_base : str; g_variations : nat;
    g_listed : list str; g_more : option nat }.

Definition group_entries (groups : list group) : list group_entry :=
  map (fun e : nat * group =>
         let variants := snd (snd e) in
         {| g_rank := fst e;
            g_base := fst (snd e);
            g_variations := length variants;
            g_listed := firstn 10 variants;
            g_more := if 10 <? length variants
                      then Some (length variants - 10) else None |})
      (enumerate1 (firstn 30 groups)).

(** Lines 125-127: the rank, the merchant, its count, and the number of
    variations [len(patterns.get(merchant, [merchant]))]. *)
Record merchant_entry : Type :=
  { m_rank : nat; m_merchant : str; m_count : nat; m_variations : nat }.

Definition variants_of (patterns : Dict.t (list str)) (merchant : str) : list str :=
  match Dict.get merchant patterns with
  | Some variants => variants
  | None => [merchant]
  end.

Definition merchant_entries (patterns : Dict.t (list str))
           (top : list (str * nat)) : list merchant_entry :=
  map (fun e : nat * (str * nat) =>
         {| m_rank := fst e;
            m_merchant := fst (snd e);
            m_count := snd (snd e);
            m_variations := length (variants_of patterns (fst (snd e))) |})
      (enumerate1 top).

(** What a run prints.  The groups are printed before the counting loop
    starts, so when that loop raises, [merchants_shown] is [None] and the
    rest is still there. *)
Record report : Type :=
  { total_unique_vendors : nat;
    groups_found : nat;
    groups_shown : list group_entry;
    merchants_shown : option (list merchant_entry) }.

(** [analyze_vendor_data], from the rows that [load_transactions] read. *)
Definition analyze_vendor_data (transactions : list row) : report :=
  let vendors := unique_vendors transactions in
  let patterns := extract_vendor_patterns vendors in
  let groups := find_groups patterns in
  {| total_unique_vendors := length vendors;
     groups_found := length groups;
     groups_shown := group_entries groups;
     merchants_shown :=
       match merchant_counts transactions with
       | Some counts => Some (merchant_entries patterns (top_merchants counts))
       | None => None
       end |}.

(** ** Specification-side notions *)

(** [subseq v u]: [v] is [u] with some characters deleted. *)
Inductive subseq {A : Type} : list A -> list A -> Prop :=
| subseq_nil : subseq [] []
| subseq_keep a v u : subseq v u -> subseq (a :: v) (a :: u)
| subseq_drop a v u : subseq v u -> subseq v (a :: u).

(** No whitespace at either end. *)
Definition trimmed (s : str) : Prop :=
  (forall a s', s = a :: s' -> Char.isspace a = false) /\
  (forall a s', s = s' ++ [a] -> Char.isspace a = false).

Definition within (j : nat) (hi : option nat) : Prop :=
  match hi with Some h => j <= h | None => True end.

(** The language of a pattern, without the priorities of the matcher:
    [matches r bos s n] says that [r] matches the first [n] characters of
    [s], which starts at index 0 of the subject when [bos] is set. *)
Inductive matches : Re.regex -> bool -> str -> nat -> Prop :=
| m_nil bos s : matches [] bos s 0
| m_bol r s n :
    matches r true s n -> matches (Re.Bol :: r) true s n
| m_eol r bos s n :
    Re.at_end s = true -> matches r bos s n -> matches (Re.Eol :: r) bos s n
| m_rep c lo hi r bos s j m :
    lo <= j -> within j hi -> j <= length s ->
    Forall (fun a => Re.cmem c a = true) (firstn j s) ->
    matches r (bos && (j =? 0)) (skipn j s) m ->
    matches (Re.Rep c lo hi :: r) bos s (j + m).

(** [s.startswith(l)] *)
Fixpoint starts_with (l s : str) : bool :=
  match l, s with
  | [], _ => true
  | b :: l', a :: s' => Ascii.eqb b a && starts_with l' s'
  | _ :: _, [] => false
  end.

(** The least length of a match, and the characters a match can hold. *)
Definition min_len (r : Re.regex) : nat :=
  fold_right (fun i n => match i with Re.Rep _ lo _ => lo + n | _ => n end) 0 r.

Definition allowed (r : Re.regex) (a : ascii) : bool :=
  existsb (fun i => match i with Re.Rep c _ _ => Re.cmem c a | _ => false end) r.

(** What a rule writes is the beginning of what it matched. *)
Definition writes_prefix (r : rule) : Prop :=
  forall bos t n, Re.re_match (pattern r) bos t = Some n ->
                  exists rest, firstn n t = repl r ++ rest.

(** No pattern of the table matches anywhere in [k]. *)
Definition no_rule_matches (k : str) : bool :=
  forallb (fun r => match Re.search (pattern r) k with
                    | None => true
                    | Some _ => false
                    end) rules.

(** [v] without the prefix [l] when it starts with it, else [v]. *)
Definition strip_prefix (l v : str) : str :=
  if starts_with l v then skipn (length l) v else v.

(** The descriptions the counting loop normalises: one per row, the empty
    string for a row without the column. *)
Definition descriptions (transactions : list row) : list str :=
  flat_map (fun t => match description_or_empty t with
                     | VStr s => [s]
                     | VNone => []
                     end) transactions.

(** The vendors with the key [k], in their order. *)
Definition with_key (k : str) (vendors : list str) : list str :=
  filter (fun v => str_eqb (normalize_vendor_base v) k) vendors.

(** The keys of a list of vendors, each once, in the order of their first
    occurence. *)
Definition keys_of (vendors : list str) : list str :=
  dedup (map normalize_vendor_base vendors).

(** A loop [d[key(x)] = step(x, d[key(x)])] over a [defaultdict] with the
    default [dflt], for one [x]; and the value such a loop leaves under
    [k]: the [step]s of the elements with that key, from the default. *)
Section GroupBy.
Variables X V : Type.
Variable key : X -> str.
Variable step : X -> V -> V.
Variable dflt : V.

Definition group_step (d : Dict.t V) (x : X) : Dict.t V :=
  Dict.update dflt (step x) (key x) d.

Definition bucket (k : str) (xs : list X) : V :=
  fold_left (fun acc x => step x acc)
            (filter (fun x => str_eqb (key x) k) xs) dflt.

End GroupBy.

(** ** Inputs of the scenarios *)

(** The two spellings of one diner, and their key. *)
Module Joes.
Definition tst_42 : str := "TST* JOES DINER #42".
Definition tst_77 : str := "TST*JOES DINER #77".
Definition key : str := "JOES DINER".
End Joes.

Module Rows.
(** A row with an empty description, one without the column, and one
    with a description. *)
Definition empty_description : row := [("Description" : str, VStr "")].
Definition no_column : row := [("Date" : str, VStr "2026-01-02")].
Definition coffee : row := [("Description" : str, VStr "SQ *BLUE BOTTLE COFFEE")].
End Rows.

(** A small ledger and the merchants its report shows. *)
Module Sample.
Definition ledger : list row :=
  [Rows.coffee; Rows.empty_description; Rows.no_column].

Definition merchants : list merchant_entry :=
  [ {| m_rank := 1; m_merchant := ""; m_count := 2; m_variations := 1 |};
    {| m_rank := 2; m_merchant := "BLUE BOTTLE COFFEE"; m_count := 1;
       m_variations := 1 |} ].
End Sample.

(** * Facts *)

(** ** Characters *)

Ltac all_chars a :=
  destruct a as [[|] [|] [|] [|] [|] [|] [|] [|]]; try reflexivity; try discriminate.

Lemma upper_char_idem a : Char.upper (Char.upper a) = Char.upper a.
Proof. all_chars a. Qed.

Lemma upper_lower_char a :
  Char.code a < 128 -> Char.upper (Char.lower a) = Char.upper a.
Proof.
  intro H. apply Nat.ltb_lt in H. revert H. all_chars a.
Qed.

Lemma isspace_upper_char a : Char.isspace (Char.upper a) = Char.isspace a.
Proof. all_chars a. Qed.

Lemma isdigit_upper_char a : Char.isdigit (Char.upper a) = Char.isdigit a.
Proof. all_chars a. Qed.

Lemma hash_upper_char a : Ascii.eqb (Char.upper a) "#" = Ascii.eqb a "#".
Proof. all_chars a. Qed.

Lemma digit_upper_char a : Char.isdigit a = true -> Char.upper a = a.
Proof. all_chars a. Qed.

Lemma digit_not_newline a :
  Char.isdigit a = true -> Ascii.eqb a Char.newline = false.
Proof. all_chars a. Qed.

Lemma newline_isspace a :
  Ascii.eqb a Char.newline = true -> Char.isspace a = true.
Proof. all_chars a. Qed.

(** ** Strings *)

Lemma upper_idem s : upper (upper s) = upper s.
Proof.
  unfold upper. rewrite map_map. apply map_ext. intro a. apply upper_char_idem.
Qed.

Lemma upper_lower s :
  Forall (fun a => Char.upper (Char.lower a) = Char.upper a) s ->
  upper (lower s) = upper s.
Proof.
  unfold upper, lower. rewrite map_map.
  induction 1 as [|a s' Ha _ IH]; simpl; [reflexivity|]. now rewrite Ha, IH.
Qed.

Lemma upper_length s : length (upper s) = length s.
Proof. apply length_map. Qed.

Lemma upper_app s t : upper (s ++ t) = upper s ++ upper t.
Proof. apply map_app. Qed.

Lemma upper_digits ds :
  Forall (fun a => Char.isdigit a = true) ds -> upper ds = ds.
Proof.
  induction 1 as [|a ds Ha _ IH]; simpl; [reflexivity|].
  now rewrite (digit_upper_char _ Ha), IH.
Qed.

Lemma upper_fixed s :
  Forall (fun a => Char.upper a = a) s -> upper s = s.
Proof.
  induction 1 as [|a s' Ha _ IH]; simpl; [reflexivity|]. now rewrite Ha, IH.
Qed.

Lemma upper_is_fixed s : Forall (fun a => Char.upper a = a) (upper s).
Proof.
  induction s as [|a s IH]; simpl; constructor; auto using upper_char_idem.
Qed.

Lemma str_eqb_eq s t : str_eqb s t = true <-> s = t.
Proof.
  revert t. induction s as [|a s IH]; intros [|b t]; simpl; split;
    try discriminate; try reflexivity.
  - intro H. apply andb_true_iff in H as [H1 H2].
    apply Ascii.eqb_eq in H1. apply IH in H2. now subst.
  - intro H. injection H as -> ->. rewrite Ascii.eqb_refl. simpl. now apply IH.
Qed.

Lemma str_eqb_refl s : str_eqb s s = true.
Proof. now apply str_eqb_eq. Qed.

Lemma str_eqb_neq s t : str_eqb s t = false <-> s <> t.
Proof.
  split.
  - intros H E. apply str_eqb_eq in E. congruence.
  - intro H. destruct (str_eqb s t) eqn:E; [|reflexivity].
    apply str_eqb_eq in E. contradiction.
Qed.

(** ** Subsequences *)

Lemma subseq_refl {A} (l : list A) : subseq l l.
Proof. induction l; constructor; assumption. Qed.

Lemma subseq_nil_l {A} (l : list A) : subseq [] l.
Proof. induction l; constructor; assumption. Qed.

Lemma subseq_length {A} (v u : list A) : subseq v u -> length v <= length u.
Proof. induction 1; simpl; lia. Qed.

Lemma subseq_trans {A} (w v u : list A) :
  subseq w v -> subseq v u -> subseq w u.
Proof.
  intros Hwv Hvu. revert w Hwv.
  induction Hvu as [|a v u _ IH|a v u _ IH]; intros w Hwv.
  - assumption.
  - inversion Hwv; subst; constructor; auto.
  - constructor. auto.
Qed.

Lemma subseq_Forall {A} (P : A -> Prop) (v u : list A) :
  subseq v u -> Forall P u -> Forall P v.
Proof.
  induction 1 as [|a v u _ IH|a v u _ IH]; intro HP.
  - constructor.
  - inversion HP; subst. constructor; auto.
  - inversion HP; subst. auto.
Qed.

Lemma subseq_app {A} (v1 u1 v2 u2 : list A) :
  subseq v1 u1 -> subseq v2 u2 -> subseq (v1 ++ v2) (u1 ++ u2).
Proof. induction 1; intros; simpl; try constructor; auto. Qed.

Lemma subseq_skipn {A} n (l : list A) : subseq (skipn n l) l.
Proof.
  revert l. induction n; intros [|a l]; simpl;
    auto using subseq_refl, subseq_nil; constructor; auto.
Qed.

Lemma subseq_snoc_drop {A} (v u : list A) a :
  subseq v u -> subseq v (u ++ [a]).
Proof.
  intro H. rewrite <- (app_nil_r v). apply subseq_app; [assumption|].
  apply subseq_nil_l.
Qed.

Lemma subseq_rev {A} (v u : list A) : subseq v u -> subseq (rev v) (rev u).
Proof.
  induction 1; simpl.
  - constructor.
  - apply subseq_app; [assumption|apply subseq_refl].
  - now apply subseq_snoc_drop.
Qed.

Lemma lstrip_subseq s : subseq (lstrip s) s.
Proof.
  induction s as [|a s IH]; simpl; [constructor|].
  destruct (Char.isspace a); [now constructor|apply subseq_refl].
Qed.

Lemma lstrip_mono v u : subseq v u -> subseq (lstrip v) (lstrip u).
Proof.
  induction 1 as [|a v u H IH|a v u H IH]; simpl.
  - constructor.
  - destruct (Char.isspace a); [assumption|now constructor].
  - destruct (Char.isspace a); [assumption|].
    constructor. eapply subseq_trans; [apply lstrip_subseq|assumption].
Qed.

Lemma rstrip_mono v u : subseq v u -> subseq (rstrip v) (rstrip u).
Proof. intro H. unfold rstrip. now apply subseq_rev, lstrip_mono, subseq_rev. Qed.

Lemma strip_mono v u : subseq v u -> subseq (strip v) (strip u).
Proof. intro H. unfold strip. now apply rstrip_mono, lstrip_mono. Qed.

Lemma strip_subseq s : subseq (strip s) s.
Proof.
  unfold strip, rstrip. eapply subseq_trans; [|apply lstrip_subseq].
  rewrite <- (rev_involutive (lstrip s)) at 2.
  apply subseq_rev, lstrip_subseq.
Qed.

(** ** The matcher against the language of a pattern *)

Section Greedy.
Variable c : Re.cset.
Variable k : bool -> str -> option nat.

Lemma greedy_sound s : forall lo hi bos n,
  Re.greedy c k lo hi bos s = Some n ->
  exists j m, n = j + m /\ lo <= j /\ within j hi /\ j <= length s /\
    Forall (fun a => Re.cmem c a = true) (firstn j s) /\
    k (bos && (j =? 0)) (skipn j s) = Some m.
Proof.
  assert (Hstop : forall (t : str) lo hi bos n,
    (if lo =? 0 then k bos t else None) = Some n ->
    exists j m, n = j + m /\ lo <= j /\ within j hi /\ j <= length t /\
      Forall (fun a => Re.cmem c a = true) (firstn j t) /\
      k (bos && (j =? 0)) (skipn j t) = Some m).
  { intros t lo hi bos n H. destruct (Nat.eqb_spec lo 0) as [->|]; [|discriminate].
    exists 0, n. simpl. rewrite andb_true_r.
    repeat split; auto; try lia. destruct hi; simpl; lia. }
  induction s as [|a s IH]; intros lo hi bos n H; simpl in H.
  - now apply Hstop.
  - destruct (Re.cmem c a && Re.may_take hi) eqn:E; [|now apply Hstop].
    destruct (Re.greedy c k (pred lo) (option_map pred hi) false s) as [n'|] eqn:G;
      [|now apply Hstop].
    injection H as <-. apply andb_true_iff in E as [Ea Eh].
    destruct (IH _ _ _ _ G) as (j & m & -> & Hlo & Hhi & Hlen & Hall & Hk).
    exists (S j), m. simpl. rewrite andb_false_r. simpl in Hk.
    repeat split; auto; try lia.
    destruct hi as [[|h]|]; simpl in *; try discriminate; lia.
Qed.

Lemma greedy_complete s : forall lo hi bos j,
  lo <= j -> within j hi -> j <= length s ->
  Forall (fun a => Re.cmem c a = true) (firstn j s) ->
  k (bos && (j =? 0)) (skipn j s) <> None ->
  Re.greedy c k lo hi bos s <> None.
Proof.
  induction s as [|a s IH]; intros lo hi bos j Hlo Hhi Hlen Hall Hk.
  - simpl in *. assert (j = 0) by lia. subst j.
    assert (lo = 0) by lia. subst lo. simpl in *.
    now rewrite andb_true_r in Hk.
  - destruct j as [|j].
    + assert (lo = 0) by lia. subst lo. simpl in *.
      rewrite andb_true_r in Hk.
      destruct (Re.cmem c a && Re.may_take hi); [|assumption].
      destruct (Re.greedy c k 0 (option_map pred hi) false s);
        [discriminate|assumption].
    + simpl in *. inversion Hall as [|? ? Ha Hall']; subst.
      rewrite andb_false_r in Hk.
      assert (Eh : Re.may_take hi = true).
      { destruct hi as [[|h]|]; simpl in *; auto; lia. }
      rewrite Ha, Eh. simpl.
      assert (G : Re.greedy c k (pred lo) (option_map pred hi) false s <> None).
      { apply (IH _ _ false j); auto; try lia.
        destruct hi as [[|h]|]; simpl in *; auto; lia. }
      destruct (Re.greedy c k (pred lo) (option_map pred hi) false s);
        [discriminate|contradiction].
Qed.
End Greedy.

Lemma re_match_sound r : forall bos s n,
  Re.re_match r bos s = Some n -> matches r bos s n.
Proof.
  induction r as [|i r IH]; intros bos s n H; simpl in H.
  - injection H as <-. constructor.
  - destruct i as [| |c lo hi].
    + destruct bos; [|discriminate]. constructor. auto.
    + destruct (Re.at_end s) eqn:E; [|discriminate]. constructor; auto.
    + apply greedy_sound in H as (j & m & -> & Hlo & Hhi & Hlen & Hall & Hk).
      constructor; auto.
Qed.

Lemma re_match_complete r bos s n :
  matches r bos s n -> Re.re_match r bos s <> None.
Proof.
  induction 1 as [bos s|r s n _ IH|r bos s n E _ IH
                  |c lo hi r bos s j m Hlo Hhi Hlen Hall _ IH]; simpl.
  - discriminate.
  - assumption.
  - now rewrite E.
  - now apply greedy_complete with (j := j).
Qed.

(** What no match at a place means. *)
Lemma re_match_none r bos s :
  (forall n, ~ matches r bos s n) -> Re.re_match r bos s = None.
Proof.
  intro H. destruct (Re.re_match r bos s) as [n|] eqn:E; [|reflexivity].
  apply re_match_sound in E. now apply H in E.
Qed.

(** ** Shape of a match *)

Lemma firstn_plus {A} j m (l : list A) :
  firstn (j + m) l = firstn j l ++ firstn m (skipn j l).
Proof.
  revert l. induction j as [|j IH]; intros [|a l]; simpl; auto.
  - now rewrite firstn_nil.
  - now rewrite IH.
Qed.

Lemma matches_length r bos s n : matches r bos s n -> n <= length s.
Proof.
  induction 1; simpl; try lia. rewrite length_skipn in *. lia.
Qed.

Lemma matches_min_len r bos s n : matches r bos s n -> min_len r <= n.
Proof. induction 1; simpl; lia. Qed.

Lemma matches_allowed r bos s n :
  matches r bos s n -> Forall (fun a => allowed r a = true) (firstn n s).
Proof.
  induction 1 as [bos s|r s n _ IH|r bos s n E _ IH
                  |c lo hi r bos s j m Hlo Hhi Hlen Hall _ IH]; simpl; auto.
  rewrite firstn_plus. apply Forall_app. split.
  - eapply Forall_impl; [|exact Hall]. simpl. intros a ->. reflexivity.
  - eapply Forall_impl; [|exact IH]. simpl. intros a ->. apply orb_true_r.
Qed.

Lemma matches_at_end r0 : forall bos s n,
  matches (r0 ++ [Re.Eol]) bos s n -> Re.at_end (skipn n s) = true.
Proof.
  induction r0 as [|i r0 IH]; intros bos s n H; simpl in H; inversion H; subst.
  - match goal with M : matches [] _ _ _ |- _ => inversion M; subst end.
    assumption.
  - eauto.
  - eauto.
  - rewrite Nat.add_comm, <- skipn_skipn. eauto.
Qed.

Lemma matches_bol r s n : ~ matches (Re.Bol :: r) false s n.
Proof. intro H. inversion H. Qed.

Lemma matches_one c r bos s n :
  matches (Re.one c :: r) bos s n ->
  exists a s' m, s = a :: s' /\ Re.cmem c a = true /\ n = S m /\
                 matches r false s' m.
Proof.
  intro H. inversion H as [| | |? ? ? ? ? ? j m Hlo Hhi Hlen Hall Hm]; subst.
  simpl in Hhi. assert (j = 1) by lia. subst j.
  destruct s as [|a s']; simpl in *; [lia|].
  inversion Hall; subst. rewrite andb_false_r in Hm.
  exists a, s', m. auto.
Qed.

Lemma matches_lit l : forall r bos s n,
  matches (Re.lit l ++ r) bos s n ->
  exists s' m, s = l ++ s' /\ n = length l + m /\
               matches r (bos && match l with [] => true | _ => false end) s' m.
Proof.
  induction l as [|b l IH]; intros r bos s n H; simpl in *.
  - exists s, n. rewrite andb_true_r. auto.
  - apply matches_one in H as (a & s' & m & -> & Ha & -> & Hm).
    apply Ascii.eqb_eq in Ha. subst a.
    apply IH in Hm as (s'' & m' & -> & -> & Hm). simpl in Hm.
    rewrite andb_false_r. exists s'', m'. auto.
Qed.

(** ** Literals *)

Lemma greedy_zero c k bos s : Re.greedy c k 0 (Some 0) bos s = k bos s.
Proof. destruct s; simpl; [reflexivity|]. now rewrite andb_false_r. Qed.

Lemma re_match_one c r bos s :
  Re.re_match (Re.one c :: r) bos s =
  match s with
  | a :: s' => if Re.cmem c a then option_map S (Re.re_match r false s') else None
  | [] => None
  end.
Proof.
  destruct s as [|a s']; simpl; [reflexivity|].
  rewrite andb_true_r, greedy_zero.
  destruct (Re.cmem c a); [|reflexivity].
  now destruct (Re.re_match r false s').
Qed.

Lemma re_match_lit l : forall bos s,
  Re.re_match (Re.lit l) bos s =
  if starts_with l s then Some (length l) else None.
Proof.
  induction l as [|b l IH]; intros bos s.
  - reflexivity.
  - change (Re.lit (b :: l)) with (Re.one (Re.Lit b) :: Re.lit l).
    rewrite re_match_one. destruct s as [|a s']; simpl; [reflexivity|].
    rewrite Ascii.eqb_sym.
    destruct (Ascii.eqb b a); simpl; [|reflexivity].
    rewrite IH. now destruct (starts_with l s').
Qed.

(** ** Substitution *)

Section Sub.
Variable r : Re.regex.
Variable repl : str.

Lemma sub_go_skip k : forall s,
  k <= length s ->
  Re.sub_go r repl false k s = Re.sub_go r repl false 0 (skipn k s).
Proof.
  induction k as [|k IH]; intros s Hk; [reflexivity|].
  destruct s as [|a s]; simpl in *; [lia|]. apply IH. lia.
Qed.

(** Where the pattern matches nowhere the string is returned as it is. *)
Lemma sub_go_no_match s : forall bos i,
  Re.search_go r bos i s = None -> Re.sub_go r repl bos 0 s = s.
Proof.
  induction s as [|a s IH]; intros bos i H; simpl in *.
  - now destruct (Re.re_match r bos []).
  - destruct (Re.re_match r bos (a :: s)); [discriminate|].
    f_equal. eauto.
Qed.

Lemma sub_no_match s : Re.search r s = None -> Re.sub r repl s = s.
Proof. apply sub_go_no_match. Qed.

Lemma search_go_none s : forall i,
  (forall t, Re.re_match r false t = None) -> Re.search_go r false i s = None.
Proof.
  induction s as [|a s IH]; intros i H; simpl; rewrite H; auto.
Qed.

(** A stretch in which no match starts is copied. *)
Lemma sub_go_copy p : forall bos rest,
  (forall i b, i < length p -> Re.re_match r b (skipn i (p ++ rest)) = None) ->
  Re.sub_go r repl bos 0 (p ++ rest) =
  p ++ Re.sub_go r repl (bos && match p with [] => true | _ => false end) 0 rest.
Proof.
  induction p as [|a p IH]; intros bos rest H.
  - simpl. now rewrite andb_true_r.
  - pose proof (H 0 bos) as H0. simpl in H0 |- *.
    rewrite H0 by lia.
    rewrite andb_false_r. f_equal.
    rewrite IH.
    + reflexivity.
    + intros i b Hi. apply (H (S i) b). simpl. lia.
Qed.

(** Every rule of the script writes a prefix of what it matched, so
    the result is the subject with characters deleted. *)
Hypothesis repl_prefix : forall bos t n,
  Re.re_match r bos t = Some n -> exists rest, firstn n t = repl ++ rest.

Lemma subseq_app_l {A} (p v u : list A) : subseq v u -> subseq v (p ++ u).
Proof. intro H. induction p; simpl; [assumption|now constructor]. Qed.

Lemma sub_go_subseq s : forall bos k,
  subseq (Re.sub_go r repl bos k s) (skipn k s).
Proof.
  induction s as [|a s IH]; intros bos [|k]; simpl.
  - destruct (Re.re_match r bos []) as [n|] eqn:E; [|constructor].
    apply repl_prefix in E as [rest E]. rewrite firstn_nil in E.
    symmetry in E. apply app_eq_nil in E as [-> _]. constructor.
  - constructor.
  - destruct (Re.re_match r bos (a :: s)) as [[|n]|] eqn:E.
    + apply repl_prefix in E as [rest E]. simpl in E.
      symmetry in E. apply app_eq_nil in E as [-> _]. simpl.
      constructor. apply (IH false 0).
    + apply repl_prefix in E as [rest E].
      rewrite <- (firstn_skipn (S n) (a :: s)). rewrite E, <- app_assoc.
      apply subseq_app; [apply subseq_refl|].
      apply subseq_app_l. simpl. apply IH.
    + constructor. apply (IH false 0).
  - apply IH.
Qed.

Lemma sub_subseq s : subseq (Re.sub r repl s) s.
Proof. apply (sub_go_subseq s true 0). Qed.
End Sub.

(** A pattern that begins with [^] matches at index 0 or not at all. *)
Lemma sub_go_anchored r repl s : Re.sub_go (Re.Bol :: r) repl false 0 s = s.
Proof.
  apply sub_go_no_match with (i := 0). apply search_go_none. reflexivity.
Qed.

(** The rule [re.sub('^' + l, '', v)] for a literal [l]. *)
Lemma sub_anchored_lit l s :
  l <> [] ->
  Re.sub (Re.Bol :: Re.lit l) "" s =
  if starts_with l s then skipn (length l) s else s.
Proof.
  intro Hl. unfold Re.sub. destruct s as [|a s].
  - destruct l; [contradiction|reflexivity].
  - cbn [Re.sub_go]. cbn [Re.re_match]. rewrite re_match_lit.
    destruct (starts_with l (a :: s)) eqn:E.
    + destruct l as [|b l]; [contradiction|]. cbn [length].
      cbn [String.list_ascii_of_string app].
      assert (Hlen : length l <= length s).
      { clear -E. simpl in E. destruct (Ascii.eqb b a); [|discriminate].
        revert s E. induction l as [|c l IH]; intros [|d s] E; simpl in *;
          try lia; try discriminate.
        destruct (Ascii.eqb c d); [|discriminate]. apply IH in E. lia. }
      rewrite sub_go_skip by assumption. apply sub_go_anchored.
    + f_equal. apply sub_go_anchored.
Qed.

(** ** Trimming *)

Lemma lstrip_head s a s' : lstrip s = a :: s' -> Char.isspace a = false.
Proof.
  induction s as [|b s IH]; simpl; [discriminate|].
  destruct (Char.isspace b) eqn:E; [assumption|].
  intro H. injection H as <- _. assumption.
Qed.

Lemma lstrip_suffix s : exists p, s = p ++ lstrip s.
Proof.
  induction s as [|a s [p IH]]; simpl.
  - now exists [].
  - destruct (Char.isspace a).
    + exists (a :: p). simpl. now f_equal.
    + now exists [].
Qed.

Lemma rstrip_prefix s : exists t, s = rstrip s ++ t.
Proof.
  unfold rstrip. destruct (lstrip_suffix (rev s)) as [p Hp].
  exists (rev p). rewrite <- rev_app_distr, <- Hp. now rewrite rev_involutive.
Qed.

Lemma strip_trimmed s : trimmed (strip s).
Proof.
  unfold strip. split; intros a s' H.
  - destruct (rstrip_prefix (lstrip s)) as [t Ht]. rewrite H in Ht.
    simpl in Ht. now apply lstrip_head in Ht.
  - unfold rstrip in H. apply (f_equal (@rev ascii)) in H.
    rewrite rev_involutive, rev_app_distr in H. simpl in H.
    now apply lstrip_head in H.
Qed.

Lemma strip_of_trimmed s : trimmed s -> strip s = s.
Proof.
  intros [Hhd Hlast]. unfold strip.
  assert (Hl : lstrip s = s).
  { destruct s as [|a s']; simpl; [reflexivity|].
    now rewrite (Hhd a s' eq_refl). }
  rewrite Hl. unfold rstrip.
  destruct (rev s) as [|a t] eqn:E; simpl.
  - now rewrite <- (rev_involutive s), E.
  - assert (Hs : s = rev t ++ [a]).
    { now rewrite <- (rev_involutive s), E. }
    rewrite (Hlast a (rev t) Hs). exact (eq_sym Hs).
Qed.

Lemma strip_idem s : strip (strip s) = strip s.
Proof. apply strip_of_trimmed, strip_trimmed. Qed.

Lemma lstrip_spaces s :
  Forall (fun a => Char.isspace a = true) s -> lstrip s = [].
Proof. induction 1 as [|a s Ha _ IH]; simpl; [reflexivity|]. now rewrite Ha. Qed.

Lemma strip_spaces s :
  Forall (fun a => Char.isspace a = true) s -> strip s = [].
Proof. intro H. unfold strip. now rewrite (lstrip_spaces H). Qed.

(** ** The rules delete characters *)

Lemma amazon_match bos t n :
  Re.re_match Pat.amazon bos t = Some n ->
  List.length ("AMAZON" : str) < n /\ exists rest, firstn n t = "AMAZON" ++ rest.
Proof.
  intro H. apply re_match_sound in H.
  pose proof (matches_min_len H) as Hmin.
  change (min_len Pat.amazon) with 13 in Hmin.
  split; [simpl; lia|].
  unfold Pat.amazon in H. apply matches_lit in H as (s' & m & -> & -> & _).
  simpl. eauto.
Qed.

Lemma rules_write_prefix : Forall writes_prefix rules.
Proof.
  unfold rules.
  repeat (apply Forall_cons;
          [first [ intros bos t n H; exists (firstn n t); reflexivity
                 | intros bos t n H; now apply amazon_match in H ]|]).
  constructor.
Qed.

(** No pattern of the script matches the empty string, so the scan of
    [Re.sub] never meets an empty match on them. *)
Lemma rules_match_nonempty :
  Forall (fun r => forall bos t n,
              Re.re_match (pattern r) bos t = Some n -> 0 < n) rules.
Proof.
  unfold rules.
  repeat (apply Forall_cons;
          [intros bos t n H; apply re_match_sound, matches_min_len in H;
           vm_compute in H; lia|]).
  constructor.
Qed.

Lemma apply_rules_subseq rs : forall v,
  Forall writes_prefix rs -> subseq (apply_rules rs v) v.
Proof.
  induction rs as [|r rs IH]; intros v H; simpl.
  - apply subseq_refl.
  - inversion H as [|? ? Hr Hrs]; subst.
    eapply subseq_trans; [apply IH; assumption|].
    unfold apply_rule. now apply sub_subseq.
Qed.

Lemma normalize_vendor_base_eq vendor :
  normalize_vendor_base vendor = strip (apply_rules rules (upper vendor)).
Proof. reflexivity. Qed.

(** The scenarios of the specification. *)
Example normalize_scenarios :
  normalize_vendor_base "SQ *BLUE BOTTLE COFFEE" = "BLUE BOTTLE COFFEE" /\
  normalize_vendor_base "AMAZON MKTP*A1B2C3D4E" = "AMAZON" /\
  normalize_vendor_base "TARGET T-1234 00018408" = "TARGET T-1234" /\
  normalize_vendor_base "WHOLEFDS OVERLAND PARK 123" = "WHOLEFDS" /\
  normalize_vendor_base "STARBUCKS POS" = "STARBUCKS".
Proof. repeat split. Qed.

Lemma normalize_subseq vendor :
  subseq (normalize_vendor_base vendor) (strip (upper vendor)).
Proof.
  rewrite normalize_vendor_base_eq.
  apply strip_mono, apply_rules_subseq, rules_write_prefix.
Qed.

(** C6.  Canonicalisation never lengthens: the key of [s] is no longer
    than [s.upper().strip()]; and whatever the marketplace rule matches
    is strictly longer than the literal AMAZON it writes for it. *)
Theorem normalize_never_lengthens :
  (forall s : str,
      length (normalize_vendor_base s) <= length (strip (upper s))) /\
  (forall bos (t : str) n,
      Re.re_match Pat.amazon bos t = Some n ->
      List.length ("AMAZON" : str) < n).
Proof.
  split.
  - intro s. apply subseq_length, normalize_subseq.
  - intros bos t n H. now apply amazon_match in H.
Qed.

Lemma normalize_never_lengthens_witness :
  Re.re_match Pat.amazon false "AMAZON MKTP*A1B2C3D4E" = Some 21 /\
  List.length ("AMAZON" : str) < 21.
Proof.
  split; [reflexivity|].
  apply (proj2 normalize_never_lengthens false "AMAZON MKTP*A1B2C3D4E" 21).
  reflexivity.
Defined.

(** C7, as the code has it.  The key of [s] is the key of [s.upper()];
    it is the key of [s.lower()] when every character [c] of [s] has
    [c.lower().upper() == c.upper()], and so for every ASCII string. *)
Theorem normalize_case_invariant (s : str) :
  normalize_vendor_base s = normalize_vendor_base (upper s) /\
  (Forall (fun a => Char.upper (Char.lower a) = Char.upper a) s ->
   normalize_vendor_base s = normalize_vendor_base (lower s)) /\
  (Forall (fun a => Char.code a < 128) s ->
   normalize_vendor_base s = normalize_vendor_base (lower s)).
Proof.
  rewrite !normalize_vendor_base_eq. split; [now rewrite upper_idem|].
  split; intro H.
  - now rewrite (upper_lower H).
  - rewrite upper_lower; [reflexivity|].
    eapply Forall_impl; [|exact H]. apply upper_lower_char.
Qed.

Lemma normalize_case_invariant_witness :
  normalize_vendor_base "Sq *Blue Bottle Coffee"
  = normalize_vendor_base (lower "Sq *Blue Bottle Coffee").
Proof.
  apply (proj2 (proj2 (normalize_case_invariant "Sq *Blue Bottle Coffee"))).
  repeat constructor.
Defined.

(** C7, as stated, fails: the lower case of the Kelvin sign is the letter
    k, whose key is K, while the Kelvin sign is its own key. *)
Lemma normalize_not_case_invariant :
  upper [Char.kelvin] = [Char.kelvin] /\
  lower [Char.kelvin] = "k" /\
  normalize_vendor_base [Char.kelvin] = [Char.kelvin] /\
  normalize_vendor_base (lower [Char.kelvin]) = "K" /\
  ~ (forall s : str,
        normalize_vendor_base s = normalize_vendor_base (upper s) /\
        normalize_vendor_base s = normalize_vendor_base (lower s)).
Proof.
  repeat (split; [reflexivity|]).
  intro H. destruct (H [Char.kelvin]) as [_ E]. vm_compute in E. discriminate.
Qed.

(** C8.  [normalize_vendor_base] is a total function on strings (it is
    defined by structural recursion, with no error case); its result has
    no whitespace at either end; and on an empty or all-whitespace input
    the result is the empty string. *)
Theorem normalize_total_trimmed (s : str) :
  (exists key : str, normalize_vendor_base s = key /\ trimmed key) /\
  (Forall (fun a => Char.isspace a = true) s -> normalize_vendor_base s = "").
Proof.
  split.
  - exists (normalize_vendor_base s). split; [reflexivity|].
    rewrite normalize_vendor_base_eq. apply strip_trimmed.
  - intro H. rewrite normalize_vendor_base_eq. apply strip_spaces.
    eapply subseq_Forall; [apply apply_rules_subseq, rules_write_prefix|].
    unfold upper. apply Forall_map.
    eapply Forall_impl; [|exact H]. simpl. intros a Ha.
    now rewrite isspace_upper_char.
Qed.

Lemma normalize_total_trimmed_witness :
  normalize_vendor_base [" "; "009"; "010"; " "]%char = "" /\
  normalize_vendor_base "" = "".
Proof.
  split.
  - apply (proj2 (normalize_total_trimmed [" "; "009"; "010"; " "]%char)).
    repeat constructor.
  - apply (proj2 (normalize_total_trimmed "")). constructor.
Defined.

(** ** Idempotence *)

Lemma apply_rules_no_match k : forall rs,
  forallb (fun r => match Re.search (pattern r) k with
                    | None => true
                    | Some _ => false
                    end) rs = true ->
  apply_rules rs k = k.
Proof.
  induction rs as [|r rs IH]; simpl; intro H; [reflexivity|].
  apply andb_true_iff in H as [Hr Hrs].
  destruct (Re.search (pattern r) k) eqn:E; [discriminate|].
  change (apply_rules rs (apply_rule k r) = k).
  unfold apply_rule. rewrite sub_no_match by exact E. now apply IH.
Qed.

Lemma normalize_is_upper s :
  upper (normalize_vendor_base s) = normalize_vendor_base s.
Proof.
  apply upper_fixed.
  eapply subseq_Forall; [|apply (upper_is_fixed s)].
  eapply subseq_trans; [apply normalize_subseq|apply strip_subseq].
Qed.

(** C2, as the code has it.  A second pass changes nothing when the key
    of the first pass holds no match of any of the fourteen patterns. *)
Theorem normalize_idempotent_on_clean_keys (s : str) :
  no_rule_matches (normalize_vendor_base s) = true ->
  normalize_vendor_base (normalize_vendor_base s) = normalize_vendor_base s.
Proof.
  intro H.
  rewrite (normalize_vendor_base_eq (normalize_vendor_base s)).
  rewrite normalize_is_upper, (apply_rules_no_match _ _ H).
  rewrite normalize_vendor_base_eq. apply strip_idem.
Qed.

Lemma normalize_idempotent_on_clean_keys_witness :
  normalize_vendor_base (normalize_vendor_base "SQ *BLUE BOTTLE COFFEE")
  = normalize_vendor_base "SQ *BLUE BOTTLE COFFEE".
Proof.
  apply (normalize_idempotent_on_clean_keys "SQ *BLUE BOTTLE COFFEE").
  vm_compute. reflexivity.
Defined.

(** C2, as stated, fails: the TST rule uncovers an SQ prefix that the SQ
    rule, which ran before it, only removes in a second call. *)
Lemma normalize_not_idempotent :
  normalize_vendor_base "TST*SQ *X" = "SQ *X" /\
  normalize_vendor_base (normalize_vendor_base "TST*SQ *X") = "X" /\
  ~ (forall s : str,
        normalize_vendor_base (normalize_vendor_base s) = normalize_vendor_base s).
Proof.
  split; [reflexivity|]. split; [reflexivity|].
  intro H. specialize (H ("TST*SQ *X" : str)). vm_compute in H. discriminate.
Qed.

(** ** The prefix rules *)

(** C3, as the code has it.  Each prefix rule removes its literal from
    the start of the string the rules before it left, once, and leaves any
    other string alone; the rules do not exclude each other, and one call
    can fire all five. *)
Theorem prefix_rules_are_sequential :
  (forall v : str, Re.sub Pat.sq "" v = strip_prefix "SQ *" v) /\
  (forall v : str, Re.sub Pat.tst "" v = strip_prefix "TST*" v) /\
  (forall v : str, Re.sub Pat.sp "" v = strip_prefix "SP " v) /\
  (forall v : str, Re.sub Pat.fsp "" v = strip_prefix "FSP*" v) /\
  (forall v : str, Re.sub Pat.par "" v = strip_prefix "PAR*" v) /\
  length (prefix_rules_fired "SQ *TST*SP FSP*PAR*X") = 5.
Proof.
  repeat split; try (intro v; apply sub_anchored_lit; discriminate).
Qed.

(** C3, as stated, fails: on "SQ *TST*X" the SQ rule and then the TST
    rule both rewrite the string. *)
Lemma two_prefix_rules_fire :
  map (fun e => (snd (fst e), snd e)) (prefix_rules_fired "SQ *TST*X")
  = [("SQ *TST*X" : str, "TST*X" : str); ("TST*X" : str, "X" : str)] /\
  ~ (forall s : str, length (prefix_rules_fired s) <= 1).
Proof.
  split; [reflexivity|].
  intro H. specialize (H ("SQ *TST*X" : str)). vm_compute in H. lia.
Qed.

(** ** The store-number rule *)

Lemma at_end_mid (x : str) c ds :
  Re.at_end (x ++ c :: ds) = true -> Char.isspace c = true.
Proof.
  destruct x as [|a [|b x]]; simpl.
  - destruct ds; [apply newline_isspace|discriminate].
  - discriminate.
  - discriminate.
Qed.

Lemma store_number_not_across (t : str) c (rest : str) bos :
  Char.isspace c = false -> Char.isdigit c = false -> Ascii.eqb c "#" = false ->
  Re.re_match Pat.store_number bos (t ++ c :: rest) = None.
Proof.
  intros Hs Hd Hh. apply re_match_none. intros n H.
  pose proof (matches_at_end [Re.star Re.Space; Re.opt (Re.Lit "#");
                              Re.Rep Re.Digit 4 (Some 8)] H) as He.
  pose proof (matches_allowed H) as Ha.
  destruct (Nat.le_gt_cases n (length t)) as [Hn|Hn].
  - rewrite skipn_app in He. replace (n - length t) with 0 in He by lia.
    simpl in He. apply at_end_mid in He. congruence.
  - rewrite firstn_app in Ha. apply Forall_app in Ha as [_ Ha].
    destruct (n - length t) as [|k] eqn:E; [lia|]. simpl in Ha.
    inversion Ha as [|? ? Hc _]; subst. simpl in Hc.
    rewrite Hs, Hd, Hh in Hc. discriminate.
Qed.

Lemma store_number_digits (ds : str) bos :
  Forall (fun a => Char.isdigit a = true) ds -> 4 <= length ds <= 8 ->
  Re.re_match Pat.store_number bos ds = Some (length ds).
Proof.
  intros Hds Hlen.
  assert (M : matches Pat.store_number bos ds (0 + (0 + (length ds + 0)))).
  { unfold Pat.store_number, Re.star, Re.opt.
    apply m_rep; [lia|exact I|lia|constructor|].
    apply m_rep; [lia|simpl; lia|simpl; lia|constructor|].
    apply m_rep; [lia|simpl; lia|simpl; lia|simpl; now rewrite firstn_all|].
    simpl skipn. rewrite skipn_all. apply m_eol; [reflexivity|constructor]. }
  apply re_match_complete in M.
  destruct (Re.re_match Pat.store_number bos ds) as [n|] eqn:E; [|contradiction].
  f_equal. apply re_match_sound in E.
  pose proof (matches_length E) as Hle.
  pose proof (matches_at_end [Re.star Re.Space; Re.opt (Re.Lit "#");
                              Re.Rep Re.Digit 4 (Some 8)] E) as He.
  pose proof (length_skipn n ds) as Hsk.
  destruct (skipn n ds) as [|a [|b x]] eqn:Es; simpl in *.
  - lia.
  - assert (Hsub : Forall (fun a => Char.isdigit a = true) (skipn n ds)).
    { eapply subseq_Forall; [apply subseq_skipn|exact Hds]. }
    rewrite Es in Hsub. inversion Hsub as [|? ? Ha _]; subst.
    apply digit_not_newline in Ha. congruence.
  - discriminate.
Qed.

Lemma sub_go_nil r bos : Re.sub_go r "" bos 0 [] = [].
Proof. simpl. now destruct (Re.re_match r bos []). Qed.

Lemma store_number_keeps (q : str) c :
  Char.isspace c = false -> Char.isdigit c = false -> Ascii.eqb c "#" = false ->
  Re.sub Pat.store_number "" (q ++ [c]) = q ++ [c].
Proof.
  intros Hs Hd Hh. unfold Re.sub.
  rewrite <- (app_nil_r (q ++ [c])) at 1. rewrite sub_go_copy.
  - now rewrite sub_go_nil, !app_nil_r.
  - intros i b Hi. rewrite app_nil_r, skipn_app.
    rewrite length_app in Hi. simpl in Hi.
    replace (i - length q) with 0 by lia. simpl.
    now apply store_number_not_across.
Qed.

Lemma store_number_strips (q : str) c (ds : str) :
  Char.isspace c = false -> Char.isdigit c = false -> Ascii.eqb c "#" = false ->
  Forall (fun a => Char.isdigit a = true) ds -> 4 <= length ds <= 8 ->
  Re.sub Pat.store_number "" (q ++ c :: ds) = q ++ [c].
Proof.
  intros Hs Hd Hh Hds Hlen. unfold Re.sub.
  change (q ++ c :: ds) with (q ++ [c] ++ ds). rewrite app_assoc.
  rewrite sub_go_copy.
  - assert (E : forall b, Re.sub_go Pat.store_number "" b 0 ds = []).
    { intro b. destruct ds as [|d ds']; [simpl in Hlen; lia|].
      cbn [Re.sub_go].
      rewrite (store_number_digits _ Hds Hlen).
      cbn [length app String.list_ascii_of_string].
      rewrite sub_go_skip by lia. rewrite skipn_all. apply sub_go_nil. }
    now rewrite E, app_nil_r.
  - intros i b Hi. rewrite <- app_assoc. rewrite skipn_app.
    rewrite length_app in Hi. simpl in Hi.
    replace (i - length q) with 0 by lia. simpl.
    now apply store_number_not_across.
Qed.

(** C10.  The store-number rule needs no separator: a final run of 4 to
    8 digits behind a character that is no digit, no whitespace and not
    [#] is removed by the first rule, so the key is the key of the string
    without the run; and the key of "BAR1234" is "BAR". *)
Theorem store_number_without_separator :
  (forall (p : str) (c : ascii) (ds : str),
      Char.isdigit c = false -> Char.isspace c = false -> c <> "#"%char ->
      Forall (fun a => Char.isdigit a = true) ds ->
      4 <= length ds <= 8 ->
      Re.sub Pat.store_number "" (upper (p ++ c :: ds)) = upper (p ++ [c]) /\
      normalize_vendor_base (p ++ c :: ds) = normalize_vendor_base (p ++ [c])) /\
  normalize_vendor_base "BAR1234" = "BAR".
Proof.
  split; [|reflexivity].
  intros p c ds Hd Hs Hh Hds Hlen.
  assert (Hs' : Char.isspace (Char.upper c) = false)
    by now rewrite isspace_upper_char.
  assert (Hd' : Char.isdigit (Char.upper c) = false)
    by now rewrite isdigit_upper_char.
  assert (Hh' : Ascii.eqb (Char.upper c) "#" = false).
  { rewrite hash_upper_char. now apply Ascii.eqb_neq. }
  assert (E1 : Re.sub Pat.store_number "" (upper (p ++ c :: ds)) = upper (p ++ [c])).
  { rewrite !upper_app. simpl. rewrite (upper_digits Hds).
    now apply store_number_strips. }
  assert (E2 : Re.sub Pat.store_number "" (upper (p ++ [c])) = upper (p ++ [c])).
  { rewrite !upper_app. simpl. now apply store_number_keeps. }
  split; [exact E1|].
  unfold normalize_vendor_base. cbv zeta. now rewrite E1, E2.
Qed.

Lemma store_number_without_separator_witness :
  Re.sub Pat.store_number "" (upper "BAR1234") = upper "BAR" /\
  normalize_vendor_base "BAR1234" = normalize_vendor_base "BAR".
Proof.
  apply (proj1 store_number_without_separator "BA" "R"%char "1234").
  - reflexivity.
  - reflexivity.
  - discriminate.
  - repeat constructor.
  - simpl. lia.
Defined.

(** ** Sorting *)

Section SortingFacts.
Variable A : Type.
Variable before : A -> A -> bool.

(** [x] may stand in front of [y]. *)
Let le (x y : A) : Prop := before y x = false.

Hypothesis before_asym : forall x y, before x y = true -> before y x = false.
Hypothesis le_trans : forall x y z, le x y -> le y z -> le x z.

Lemma insert_perm x l : Permutation (insert before x l) (x :: l).
Proof.
  induction l as [|y l IH]; simpl; [reflexivity|].
  destruct (before y x); [|reflexivity].
  rewrite IH. apply perm_swap.
Qed.

Lemma insertion_sort_perm l : Permutation (insertion_sort before l) l.
Proof.
  induction l as [|x l IH]; simpl; [reflexivity|].
  rewrite insert_perm. now constructor.
Qed.

Lemma insert_hd y x l :
  le y x -> HdRel le y l -> HdRel le y (insert before x l).
Proof.
  intros Hyx Hl. destruct l as [|z l]; simpl; [now constructor|].
  inversion Hl; subst. destruct (before z x); now constructor.
Qed.

Lemma insert_sorted x l : Sorted le l -> Sorted le (insert before x l).
Proof.
  induction 1 as [|y l Hl IH Hy]; simpl.
  - repeat constructor.
  - destruct (before y x) eqn:E.
    + constructor; [assumption|]. apply insert_hd; [|assumption].
      now apply before_asym.
    + repeat constructor; assumption.
Qed.

Lemma insertion_sort_sorted l : Sorted le (insertion_sort before l).
Proof.
  induction l as [|x l IH]; simpl; [constructor|now apply insert_sorted].
Qed.

Lemma insertion_sort_strongly_sorted l :
  StronglySorted le (insertion_sort before l).
Proof.
  apply Sorted_StronglySorted; [exact le_trans|apply insertion_sort_sorted].
Qed.
End SortingFacts.

Lemma StronglySorted_impl {A} (R R' : A -> A -> Prop) l :
  (forall x y, R x y -> R' x y) -> StronglySorted R l -> StronglySorted R' l.
Proof.
  intros HR. induction 1 as [|x l Hl IH Hx]; constructor; [assumption|].
  eapply Forall_impl; [|exact Hx]. apply HR.
Qed.

(** The order of strings. *)

Lemma str_ltb_asym s : forall t, str_ltb s t = true -> str_ltb t s = false.
Proof.
  induction s as [|a s IH]; intros [|b t]; simpl; auto; try discriminate.
  destruct (Nat.ltb_spec (Char.code a) (Char.code b));
    destruct (Nat.ltb_spec (Char.code b) (Char.code a));
    auto; try lia; try discriminate.
Qed.

Lemma str_leb_trans s : forall t u,
  str_leb s t = true -> str_leb t u = true -> str_leb s u = true.
Proof.
  unfold str_leb. induction s as [|a s IH]; intros [|b t] [|c u]; simpl; auto;
    try discriminate.
  repeat match goal with
         | |- context [?x <? ?y] => destruct (Nat.ltb_spec x y)
         end; simpl; auto; try lia; try discriminate.
  apply IH.
Qed.

Lemma sorted_strs_sorted variants :
  StronglySorted (fun s t => str_leb s t = true) (sorted_strs variants).
Proof.
  unfold sorted_strs.
  eapply StronglySorted_impl; [|apply insertion_sort_strongly_sorted].
  - unfold str_leb. intros s t H. simpl in H. now rewrite H.
  - apply str_ltb_asym.
  - intros x y z Hxy Hyz.
    pose proof (@str_leb_trans x y z) as T. unfold str_leb in T.
    rewrite Hxy, Hyz in T. specialize (T eq_refl eq_refl).
    now apply negb_true_iff in T.
Qed.

Lemma sorted_strs_perm variants : Permutation (sorted_strs variants) variants.
Proof. apply insertion_sort_perm. Qed.

Lemma sorted_by_len_desc_sorted groups :
  StronglySorted (fun g1 g2 : group => length (snd g2) <= length (snd g1))
                 (sorted_by_len_desc groups).
Proof.
  unfold sorted_by_len_desc.
  eapply StronglySorted_impl; [|apply insertion_sort_strongly_sorted].
  - intros g1 g2 H. simpl in H. apply Nat.ltb_ge in H. exact H.
  - intros x y H. apply Nat.ltb_lt in H. apply Nat.ltb_ge. lia.
  - intros x y z Hxy Hyz. apply Nat.ltb_ge in Hxy, Hyz. apply Nat.ltb_ge. lia.
Qed.

Lemma collect_groups_eq patterns :
  collect_groups patterns =
  map (fun g : group => (fst g, sorted_strs (snd g)))
      (filter (fun g : group => 1 <? length (snd g)) patterns).
Proof.
  induction patterns as [|[base variants] rest IH]; simpl; [reflexivity|].
  destruct (1 <? length variants); simpl; now rewrite IH.
Qed.

(** C5.  The groups are exactly the buckets with more than one variant
    (each with its variants sorted, which keeps their number), and they
    come by falling number of variants. *)
Theorem find_groups_ambiguous_desc (patterns : Dict.t (list str)) :
  Permutation (find_groups patterns)
              (map (fun g : group => (fst g, sorted_strs (snd g)))
                   (filter (fun g : group => 1 <? length (snd g)) patterns)) /\
  (forall variants : list str, length (sorted_strs variants) = length variants) /\
  StronglySorted (fun g1 g2 : group => length (snd g2) <= length (snd g1))
                 (find_groups patterns).
Proof.
  unfold find_groups. split; [|split].
  - rewrite <- collect_groups_eq. apply insertion_sort_perm.
  - intro variants. apply Permutation_length, sorted_strs_perm.
  - apply sorted_by_len_desc_sorted.
Qed.

(** C9.  In every group of [find_groups] the variants are in ascending
    order of the strings, whatever their order in the bucket was. *)
Theorem find_groups_variants_sorted (patterns : Dict.t (list str)) :
  Forall (fun g : group =>
            StronglySorted (fun s t => str_leb s t = true) (snd g) /\
            exists variants, In (fst g, variants) patterns /\
                             Permutation (snd g) variants)
         (find_groups patterns).
Proof.
  unfold find_groups.
  eapply Permutation_Forall;
    [symmetry; apply insertion_sort_perm|].
  rewrite collect_groups_eq. apply Forall_map. apply Forall_forall.
  intros [base variants] Hin. apply filter_In in Hin as [Hin _]. simpl. split.
  - apply sorted_strs_sorted.
  - exists variants. split; [assumption|apply sorted_strs_perm].
Qed.

(** ** Dictionaries and grouping *)

Lemma str_eqb_trans_l k0 k' k :
  str_eqb k0 k' = true -> str_eqb k0 k = str_eqb k' k.
Proof. intro H. apply str_eqb_eq in H. now subst. Qed.

Lemma get_update {V} (dflt : V) f k' k (d : Dict.t V) :
  Dict.get k (Dict.update dflt f k' d) =
  if str_eqb k' k
  then Some (f match Dict.get k d with Some v => v | None => dflt end)
  else Dict.get k d.
Proof.
  induction d as [|[k0 v] d IH]; simpl.
  - now destruct (str_eqb k' k).
  - destruct (str_eqb k0 k') eqn:E0; simpl.
    + rewrite (@str_eqb_trans_l k0 k' k E0). now destruct (str_eqb k' k).
    + rewrite IH. destruct (str_eqb k' k) eqn:E1; [|reflexivity].
      apply str_eqb_eq in E1. subst k'. now rewrite E0.
Qed.

(** The bucket of a key holds the vendors with that key, in the order of
    the input. *)
Lemma extract_from_get k vendors : forall patterns : Dict.t (list str),
  Dict.get k
    (fold_left
       (fun patterns vendor =>
          let base := normalize_vendor_base vendor in
          Dict.update [] (fun l => l ++ [vendor]) base patterns)
       vendors patterns) =
  match Dict.get k patterns,
        filter (fun v => str_eqb (normalize_vendor_base v) k) vendors with
  | Some l0, l => Some (l0 ++ l)
  | None, [] => None
  | None, l => Some l
  end.
Proof.
  induction vendors as [|v vendors IH]; intro patterns; simpl.
  - destruct (Dict.get k patterns); [now rewrite app_nil_r|reflexivity].
  - rewrite IH, get_update.
    destruct (str_eqb (normalize_vendor_base v) k).
    + destruct (Dict.get k patterns); simpl; [now rewrite <- app_assoc|reflexivity].
    + reflexivity.
Qed.

Lemma extract_get k vendors :
  Dict.get k (extract_vendor_patterns vendors) =
  match filter (fun v => str_eqb (normalize_vendor_base v) k) vendors with
  | [] => None
  | l => Some l
  end.
Proof. unfold extract_vendor_patterns. now rewrite extract_from_get. Qed.

(** C4.  Both spellings have the key JOES DINER; given the two, the
    grouping has the one bucket JOES DINER with the two variants, which is
    then the one ambiguous group; and in any input that holds both, both
    are in the bucket of JOES DINER, which holds the descriptions with
    that key and no others. *)
Theorem joes_diner_one_bucket :
  normalize_vendor_base Joes.tst_42 = Joes.key /\
  normalize_vendor_base Joes.tst_77 = Joes.key /\
  extract_vendor_patterns [Joes.tst_42; Joes.tst_77]
  = [(Joes.key, [Joes.tst_42; Joes.tst_77])] /\
  find_groups (extract_vendor_patterns [Joes.tst_42; Joes.tst_77])
  = [(Joes.key, [Joes.tst_42; Joes.tst_77])] /\
  (forall vendors : list str,
      In Joes.tst_42 vendors -> In Joes.tst_77 vendors ->
      exists variants,
        Dict.get Joes.key (extract_vendor_patterns vendors) = Some variants /\
        In Joes.tst_42 variants /\ In Joes.tst_77 variants /\
        forall v, In v variants <->
                  In v vendors /\ normalize_vendor_base v = Joes.key).
Proof.
  repeat (split; [reflexivity|]).
  intros vendors H42 H77.
  set (same := fun v => str_eqb (normalize_vendor_base v) Joes.key).
  assert (Hin : forall v, In v (filter same vendors) <->
                          In v vendors /\ normalize_vendor_base v = Joes.key).
  { intro v. rewrite filter_In. unfold same. now rewrite str_eqb_eq. }
  exists (filter same vendors). rewrite extract_get. fold same.
  assert (I42 : In Joes.tst_42 (filter same vendors)) by now apply Hin.
  assert (I77 : In Joes.tst_77 (filter same vendors)) by now apply Hin.
  split; [|split; [exact I42|split; [exact I77|exact Hin]]].
  destruct (filter same vendors); [contradiction|reflexivity].
Qed.

Lemma joes_diner_one_bucket_witness :
  exists variants,
    Dict.get Joes.key (extract_vendor_patterns [Joes.tst_77; Joes.tst_42])
    = Some variants /\
    In Joes.tst_42 variants /\ In Joes.tst_77 variants /\
    forall v, In v variants <->
              In v [Joes.tst_77; Joes.tst_42] /\ normalize_vendor_base v = Joes.key.
Proof.
  apply (proj2 (proj2 (proj2 (proj2 joes_diner_one_bucket)))).
  - right. left. reflexivity.
  - left. reflexivity.
Defined.

(** ** The count of transactions *)

Lemma total_count_update k (d : Dict.t nat) :
  total_count (Dict.update 0 S k d) = S (total_count d).
Proof.
  induction d as [|[k0 n] d IH]; simpl; [reflexivity|].
  destruct (str_eqb k0 k); simpl; [reflexivity|]. rewrite IH. lia.
Qed.

(** Every transaction whose description is a string, the empty one
    included, adds one to some counter. *)
Lemma count_merchants_total transactions : forall counts,
  Forall (fun t => description_or_empty t <> VNone) transactions ->
  exists d, count_merchants counts transactions = Some d /\
            total_count d = total_count counts + length transactions.
Proof.
  induction transactions as [|t rest IH]; intros counts H; simpl.
  - exists counts. split; [reflexivity|lia].
  - inversion H as [|? ? Ht Hrest]; subst.
    destruct (description_or_empty t) as [|vendor]; [contradiction|].
    destruct (IH (Dict.update 0 S (normalize_vendor_base vendor) counts) Hrest)
      as (d & Hd & Hn).
    exists d. split; [assumption|]. rewrite Hn, total_count_update. lia.
Qed.

(** C1 against the code.  A transaction with an empty description, and
    one without the column, is counted under the empty key, while the
    list of distinct vendors leaves both out. *)
Theorem empty_description_is_counted :
  merchant_counts [Rows.empty_description] = Some [("" : str, 1)] /\
  merchant_counts [Rows.no_column] = Some [("" : str, 1)] /\
  merchant_counts [Rows.coffee; Rows.empty_description; Rows.no_column]
  = Some [("BLUE BOTTLE COFFEE" : str, 1); ("" : str, 2)] /\
  unique_vendors [Rows.coffee; Rows.empty_description; Rows.no_column]
  = ["SQ *BLUE BOTTLE COFFEE" : str].
Proof. repeat split. Qed.

(** * Further facts about the code *)

(** ** Distinct elements *)

Lemma str_eqb_sym s t : str_eqb s t = str_eqb t s.
Proof.
  destruct (str_eqb s t) eqn:E.
  - apply str_eqb_eq in E. subst. symmetry. apply str_eqb_refl.
  - symmetry. apply str_eqb_neq. apply str_eqb_neq in E. congruence.
Qed.

Lemma existsb_str_In x l : existsb (str_eqb x) l = true <-> In x l.
Proof.
  rewrite existsb_exists. split.
  - intros (y & Hy & E). apply str_eqb_eq in E. now subst.
  - intro H. exists x. split; [assumption|apply str_eqb_refl].
Qed.

Lemma dedup_In x l : In x (dedup l) <-> In x l.
Proof.
  induction l as [|a l IH]; simpl; [tauto|].
  rewrite filter_In, IH, negb_true_iff, str_eqb_neq.
  destruct (str_eqb a x) eqn:E.
  - apply str_eqb_eq in E. tauto.
  - apply str_eqb_neq in E. tauto.
Qed.

Lemma dedup_NoDup l : NoDup (dedup l).
Proof.
  induction l as [|a l IH]; simpl; constructor.
  - rewrite filter_In, negb_true_iff, str_eqb_refl. intros [_ H]. discriminate.
  - now apply NoDup_filter.
Qed.

Lemma dedup_snoc l x :
  dedup (l ++ [x]) = if existsb (str_eqb x) l then dedup l else dedup l ++ [x].
Proof.
  induction l as [|a l IH]; simpl; [reflexivity|].
  rewrite IH. rewrite (str_eqb_sym x a).
  destruct (str_eqb a x) eqn:E; simpl.
  - apply str_eqb_eq in E. subst a.
    destruct (existsb (str_eqb x) l); [reflexivity|].
    rewrite filter_app. simpl. rewrite str_eqb_refl. simpl.
    now rewrite app_nil_r.
  - destruct (existsb (str_eqb x) l); [reflexivity|].
    rewrite filter_app. simpl. now rewrite E.
Qed.

Lemma existsb_dedup x l :
  existsb (str_eqb x) (dedup l) = existsb (str_eqb x) l.
Proof.
  destruct (existsb (str_eqb x) l) eqn:E.
  - apply existsb_str_In. apply dedup_In. now apply existsb_str_In.
  - destruct (existsb (str_eqb x) (dedup l)) eqn:E'; [|reflexivity].
    apply (proj1 (existsb_str_In _ _)) in E'.
    apply (proj1 (dedup_In _ _)) in E'.
    apply (proj2 (existsb_str_In _ _)) in E'. congruence.
Qed.

(** ** Grouping by a key with [defaultdict]

    Both loops of the script have the shape [d[key(x)] = step(x, d[key(x)])]
    over a [defaultdict]; this is what such a loop builds. *)

Section GroupFold.
Variables X V : Type.
Variable key : X -> str.
Variable step : X -> V -> V.
Variable dflt : V.

Local Abbreviation group_step := (group_step key step dflt).
Local Abbreviation bucket := (bucket key step dflt).

Lemma bucket_snoc k xs x :
  bucket k (xs ++ [x]) =
  if str_eqb (key x) k then step x (bucket k xs) else bucket k xs.
Proof.
  unfold bucket. rewrite filter_app. simpl.
  destruct (str_eqb (key x) k); [|now rewrite app_nil_r].
  now rewrite fold_left_app.
Qed.

Lemma bucket_absent k xs :
  existsb (str_eqb k) (map key xs) = false -> bucket k xs = dflt.
Proof.
  intro H. unfold bucket.
  replace (filter (fun x => str_eqb (key x) k) xs) with (@nil X); [reflexivity|].
  symmetry. induction xs as [|y xs IH]; simpl in *; [reflexivity|].
  apply orb_false_iff in H as [H1 H2]. rewrite str_eqb_sym, H1. now apply IH.
Qed.

Lemma update_grouped xs x ks :
  NoDup ks ->
  Dict.update dflt (step x) (key x) (map (fun k => (k, bucket k xs)) ks) =
  map (fun k => (k, bucket k (xs ++ [x]))) ks
      ++ (if existsb (str_eqb (key x)) ks then [] else [(key x, step x dflt)]).
Proof.
  induction 1 as [|k ks Hk Hks IH]; simpl; [reflexivity|].
  rewrite bucket_snoc, (str_eqb_sym k (key x)).
  destruct (str_eqb (key x) k) eqn:E; simpl.
  - rewrite app_nil_r. f_equal. apply map_ext_in. intros k' Hk'.
    rewrite bucket_snoc.
    destruct (str_eqb (key x) k') eqn:E'; [|reflexivity].
    apply str_eqb_eq in E, E'. subst. contradiction.
  - now rewrite IH.
Qed.

Lemma group_fold_spec xs :
  fold_left group_step xs [] =
  map (fun k => (k, bucket k xs)) (dedup (map key xs)).
Proof.
  induction xs as [|x xs IH] using rev_ind; [reflexivity|].
  rewrite fold_left_app. simpl. rewrite IH. unfold group_step.
  rewrite update_grouped by apply dedup_NoDup.
  rewrite map_app. simpl. rewrite dedup_snoc, existsb_dedup.
  destruct (existsb (str_eqb (key x)) (map key xs)) eqn:E.
  - now rewrite app_nil_r.
  - rewrite map_app. simpl. rewrite bucket_snoc, str_eqb_refl.
    now rewrite (bucket_absent _ _ E).
Qed.
End GroupFold.

Lemma fold_left_snoc {A} (l acc : list A) :
  fold_left (fun acc x => acc ++ [x]) l acc = acc ++ l.
Proof.
  revert acc. induction l as [|x l IH]; intro acc; simpl.
  - now rewrite app_nil_r.
  - rewrite IH, <- app_assoc. reflexivity.
Qed.

Lemma fold_left_count {A} (l : list A) n :
  fold_left (fun acc _ => S acc) l n = n + length l.
Proof.
  revert n. induction l as [|x l IH]; intro n; simpl; [lia|]. rewrite IH. lia.
Qed.

(** The whole of [extract_vendor_patterns]: the keys in the order of their
    first vendor, each with its vendors in the order of the input. *)
Lemma extract_spec vendors :
  extract_vendor_patterns vendors =
  map (fun k => (k, with_key k vendors)) (keys_of vendors).
Proof.
  unfold extract_vendor_patterns, keys_of, with_key.
  change (fold_left _ vendors [])
    with (fold_left (group_step normalize_vendor_base
                                (fun v (l : list str) => l ++ [v]) [])
                    vendors []).
  rewrite group_fold_spec. apply map_ext. intro k. unfold bucket.
  now rewrite fold_left_snoc.
Qed.

(** The counting loop: it raises on the first [None] description, and
    otherwise is the grouping loop over the descriptions. *)
Lemma count_merchants_fold transactions : forall counts,
  count_merchants counts transactions =
  if existsb (fun t => match description_or_empty t with
                       | VNone => true
                       | VStr _ => false
                       end) transactions
  then None
  else Some (fold_left (group_step normalize_vendor_base (fun _ n => S n) 0)
                       (descriptions transactions) counts).
Proof.
  induction transactions as [|t rest IH]; intro counts; simpl; [reflexivity|].
  unfold descriptions in *. simpl.
  destruct (description_or_empty t) as [|vendor]; simpl; [reflexivity|].
  now rewrite IH.
Qed.

Lemma merchant_counts_spec transactions :
  merchant_counts transactions =
  if existsb (fun t => match description_or_empty t with
                       | VNone => true
                       | VStr _ => false
                       end) transactions
  then None
  else Some (map (fun k => (k, length (with_key k (descriptions transactions))))
                 (keys_of (descriptions transactions))).
Proof.
  unfold merchant_counts. rewrite count_merchants_fold.
  destruct (existsb _ transactions); [reflexivity|].
  rewrite group_fold_spec. f_equal. apply map_ext. intro k.
  unfold bucket. now rewrite fold_left_count.
Qed.

(** ** More about [normalize_vendor_base] *)

Lemma islower_upper_char a : Char.islower (Char.upper a) = false.
Proof. all_chars a. Qed.

Lemma subseq_same_length {A} (v u : list A) :
  subseq v u -> length u <= length v -> v = u.
Proof.
  induction 1 as [|a v u H IH|a v u H IH]; simpl; intro L.
  - reflexivity.
  - f_equal. apply IH. lia.
  - apply subseq_length in H. lia.
Qed.

Lemma normalize_key_subseq s :
  subseq (normalize_vendor_base (normalize_vendor_base s))
         (normalize_vendor_base s).
Proof.
  eapply subseq_trans; [apply normalize_subseq|].
  rewrite normalize_is_upper.
  rewrite (normalize_vendor_base_eq s), strip_idem. apply subseq_refl.
Qed.

Lemma normalize_length s : length (normalize_vendor_base s) <= length s.
Proof.
  rewrite <- (upper_length s). apply subseq_length.
  eapply subseq_trans; [apply normalize_subseq|apply strip_subseq].
Qed.

Lemma normalize_key_step s :
  normalize_vendor_base (normalize_vendor_base s) = normalize_vendor_base s \/
  length (normalize_vendor_base (normalize_vendor_base s))
  < length (normalize_vendor_base s).
Proof.
  destruct (Nat.le_gt_cases
              (length (normalize_vendor_base s))
              (length (normalize_vendor_base (normalize_vendor_base s))))
    as [L|L]; [left|now right].
  apply subseq_same_length; [apply normalize_key_subseq|assumption].
Qed.

Lemma iter_fixed n : forall s : str,
  length (normalize_vendor_base s) <= n ->
  normalize_vendor_base (Nat.iter n normalize_vendor_base (normalize_vendor_base s))
  = Nat.iter n normalize_vendor_base (normalize_vendor_base s).
Proof.
  induction n as [|n IH]; intros s L.
  - simpl. destruct (normalize_vendor_base s) eqn:E; [reflexivity|simpl in L; lia].
  - rewrite Nat.iter_succ_r.
    destruct (normalize_key_step s) as [E|Lt].
    + rewrite E. clear IH L. induction n as [|n IHn]; simpl.
      * exact E.
      * now rewrite !IHn.
    + apply IH. lia.
Qed.

(** X1.  A key has none of the letters a to z. *)
Theorem normalize_key_has_no_lowercase (s : str) :
  Forall (fun a => Char.between "a" "z" a = false) (normalize_vendor_base s).
Proof.
  eapply subseq_Forall;
    [eapply subseq_trans; [apply normalize_subseq|apply strip_subseq]|].
  unfold upper. apply Forall_map. apply Forall_forall. intros a _.
  apply islower_upper_char.
Qed.

(** X2.  The rules delete and never insert, change or reorder: the key is
    the upper-cased input with characters left out. *)
Theorem normalize_deletes_only (s : str) :
  subseq (normalize_vendor_base s) (upper s).
Proof.
  eapply subseq_trans; [apply normalize_subseq|apply strip_subseq].
Qed.

(** X3.  An input in which, once upper-cased, no pattern matches anywhere
    is only upper-cased and trimmed. *)
Theorem normalize_passes_unmatched (s : str) :
  no_rule_matches (upper s) = true ->
  normalize_vendor_base s = strip (upper s).
Proof.
  intro H. rewrite normalize_vendor_base_eq.
  now rewrite (apply_rules_no_match _ _ H).
Qed.

Lemma normalize_passes_unmatched_witness :
  normalize_vendor_base "  Starbucks Coffee " = strip (upper "  Starbucks Coffee ").
Proof.
  apply (normalize_passes_unmatched "  Starbucks Coffee ").
  vm_compute. reflexivity.
Defined.

(** X4.  Normalising a key again returns it or a strictly shorter key, so
    repeating the function comes to a key it leaves unchanged after at
    most [len(s) + 1] calls. *)
Theorem normalize_reaches_fixed_point (s : str) :
  (normalize_vendor_base (normalize_vendor_base s) = normalize_vendor_base s \/
   length (normalize_vendor_base (normalize_vendor_base s))
   < length (normalize_vendor_base s)) /\
  normalize_vendor_base (Nat.iter (S (length s)) normalize_vendor_base s)
  = Nat.iter (S (length s)) normalize_vendor_base s.
Proof.
  split; [apply normalize_key_step|].
  rewrite Nat.iter_succ_r. apply iter_fixed, normalize_length.
Qed.

(** ** More about the grouping *)

Lemma with_key_In k vendors v :
  In v (with_key k vendors) <-> In v vendors /\ normalize_vendor_base v = k.
Proof. unfold with_key. now rewrite filter_In, str_eqb_eq. Qed.

Lemma keys_of_In k vendors :
  In k (keys_of vendors) <-> exists v, In v vendors /\ normalize_vendor_base v = k.
Proof.
  unfold keys_of. rewrite dedup_In, in_map_iff.
  split; intros (v & H1 & H2); exists v; tauto.
Qed.

Lemma filter_split {A} (p : A -> bool) l :
  Permutation l (filter p l ++ filter (fun x => negb (p x)) l).
Proof.
  induction l as [|a l IH]; simpl; [constructor|].
  destruct (p a); simpl.
  - now constructor.
  - now apply Permutation_cons_app.
Qed.

Lemma filter_filter_key k ks vendors :
  ~ In k ks ->
  flat_map (fun k' => with_key k' vendors) ks =
  flat_map (fun k' => with_key k'
                        (filter (fun v => negb (str_eqb (normalize_vendor_base v) k))
                                vendors)) ks.
Proof.
  intro Hk. rewrite !flat_map_concat_map. f_equal.
  apply map_ext_in. intros k' Hk'. unfold with_key.
  induction vendors as [|v vendors IH]; simpl; [reflexivity|].
  destruct (str_eqb (normalize_vendor_base v) k) eqn:E; simpl.
  - destruct (str_eqb (normalize_vendor_base v) k') eqn:E'; [|assumption].
    apply str_eqb_eq in E, E'. subst. contradiction.
  - destruct (str_eqb (normalize_vendor_base v) k'); [now f_equal|assumption].
Qed.

(** Buckets over distinct keys that cover the vendors split them. *)
Lemma buckets_partition ks : forall vendors,
  NoDup ks ->
  (forall v, In v vendors -> In (normalize_vendor_base v) ks) ->
  Permutation (flat_map (fun k => with_key k vendors) ks) vendors.
Proof.
  induction ks as [|k ks IH]; intros vendors Hnd Hcov; simpl.
  - destruct vendors as [|v vendors]; [constructor|].
    destruct (Hcov v (or_introl eq_refl)).
  - inversion Hnd as [|? ? Hk Hks]; subst.
    rewrite (@filter_filter_key k ks vendors Hk).
    rewrite IH; [symmetry; apply filter_split|assumption|].
    intros v Hv. apply filter_In in Hv as [Hv Hne].
    apply negb_true_iff, str_eqb_neq in Hne.
    destruct (Hcov v Hv) as [E|Hin]; [congruence|assumption].
Qed.

Lemma flat_map_snd_extract vendors :
  concat (map snd (extract_vendor_patterns vendors)) =
  flat_map (fun k => with_key k vendors) (keys_of vendors).
Proof.
  rewrite extract_spec, map_map, flat_map_concat_map. reflexivity.
Qed.

Lemma extract_buckets_perm vendors :
  Permutation (concat (map snd (extract_vendor_patterns vendors))) vendors.
Proof.
  rewrite flat_map_snd_extract. apply buckets_partition.
  - apply dedup_NoDup.
  - intros v Hv. apply keys_of_In. now exists v.
Qed.

(** X5.  The keys of the grouping are the keys of the vendors, each once,
    in the order in which their first vendor comes in the input. *)
Theorem extract_keys_first_seen (vendors : list str) :
  map fst (extract_vendor_patterns vendors)
  = dedup (map normalize_vendor_base vendors) /\
  NoDup (map fst (extract_vendor_patterns vendors)).
Proof.
  assert (E : map fst (extract_vendor_patterns vendors)
              = dedup (map normalize_vendor_base vendors)).
  { rewrite extract_spec, map_map. simpl. apply map_id. }
  split; [exact E|]. rewrite E. apply dedup_NoDup.
Qed.

(** X6.  Looking a key up in the grouping gives the vendors of the input
    that have this key, in the order of the input; a key that no vendor
    has is not in the dictionary. *)
Theorem extract_lookup (vendors : list str) (k : str) :
  Dict.get k (extract_vendor_patterns vendors) =
  match filter (fun v => str_eqb (normalize_vendor_base v) k) vendors with
  | [] => None
  | variants => Some variants
  end.
Proof. apply extract_get. Qed.

(** X7.  The grouping loses and repeats nothing: the buckets, one after
    the other, are a rearrangement of the input, and no bucket is empty. *)
Theorem extract_partitions (vendors : list str) :
  Permutation (concat (map snd (extract_vendor_patterns vendors))) vendors /\
  Forall (fun g : group => snd g <> []) (extract_vendor_patterns vendors).
Proof.
  split; [apply extract_buckets_perm|].
  - rewrite extract_spec. apply Forall_map. apply Forall_forall.
    intros k Hk. simpl. apply keys_of_In in Hk as (v & Hv & E).
    intro Hnil. assert (Hin : In v (with_key k vendors)) by now apply with_key_In.
    rewrite Hnil in Hin. contradiction.
Qed.

(** X8.  Every group found in a grouping has at least two variants, all
    of them vendors of the input whose key is the base of the group. *)
Theorem find_groups_of_grouping (vendors : list str) :
  Forall (fun g : group =>
            2 <= length (snd g) /\
            Forall (fun v => In v vendors /\ normalize_vendor_base v = fst g)
                   (snd g))
         (find_groups (extract_vendor_patterns vendors)).
Proof.
  unfold find_groups.
  eapply Permutation_Forall; [symmetry; apply insertion_sort_perm|].
  rewrite collect_groups_eq. apply Forall_map. apply Forall_forall.
  intros [k variants] Hin. apply filter_In in Hin as [Hin Hlen]. simpl in *.
  apply Nat.ltb_lt in Hlen. split.
  - rewrite (Permutation_length (sorted_strs_perm variants)). lia.
  - rewrite extract_spec in Hin. apply in_map_iff in Hin as (k' & E & _).
    injection E as -> <-.
    eapply Permutation_Forall; [symmetry; apply sorted_strs_perm|].
    apply Forall_forall. intros v Hv. now apply with_key_In.
Qed.

(** ** Ties in the sort by a number *)

Section StableByNumber.
Variable A : Type.
Variable num : A -> nat.

Local Abbreviation by_num_desc := (fun y x : A => num x <? num y).

Lemma insert_same_num n x l :
  filter (fun a => num a =? n) (insert by_num_desc x l)
  = filter (fun a => num a =? n) (x :: l).
Proof.
  induction l as [|y l IH]; [reflexivity|].
  cbn [insert]. destruct (Nat.ltb_spec (num x) (num y)) as [L|L]; [|reflexivity].
  cbn [filter] in *. rewrite IH.
  destruct (Nat.eqb_spec (num x) n), (Nat.eqb_spec (num y) n);
    try reflexivity; lia.
Qed.

Lemma insertion_sort_same_num n l :
  filter (fun a => num a =? n) (insertion_sort by_num_desc l)
  = filter (fun a => num a =? n) l.
Proof.
  induction l as [|x l IH]; [reflexivity|].
  cbn [insertion_sort]. rewrite insert_same_num. cbn [filter]. now rewrite IH.
Qed.
End StableByNumber.

(** X9.  Groups with equally many variants stay in the order in which
    the loop over the dictionary met them. *)
Theorem find_groups_keeps_ties (patterns : Dict.t (list str)) (n : nat) :
  filter (fun g : group => length (snd g) =? n) (find_groups patterns)
  = filter (fun g : group => length (snd g) =? n) (collect_groups patterns).
Proof.
  unfold find_groups, sorted_by_len_desc.
  apply (insertion_sort_same_num (fun g : group => length (snd g))).
Qed.

Lemma collect_groups_nil patterns :
  collect_groups patterns = [] <->
  Forall (fun g : group => length (snd g) <= 1) patterns.
Proof.
  induction patterns as [|[k variants] rest IH]; simpl.
  - split; [constructor|reflexivity].
  - destruct (Nat.ltb_spec 1 (length variants)) as [L|L].
    + split; [discriminate|]. intro H. inversion H; subst. simpl in *. lia.
    + rewrite IH. split.
      * intro H. constructor; assumption.
      * intro H. now inversion H.
Qed.

Lemma find_groups_nil patterns :
  find_groups patterns = [] <-> collect_groups patterns = [].
Proof.
  unfold find_groups, sorted_by_len_desc. split; intro H.
  - apply Permutation_nil. rewrite <- H. apply insertion_sort_perm.
  - now rewrite H.
Qed.

Lemma short_list_eq {A} (l : list A) x y :
  length l <= 1 -> In x l -> In y l -> x = y.
Proof.
  destruct l as [|a [|b l]]; simpl; intros L Hx Hy; try lia; try contradiction.
  destruct Hx as [<-|[]], Hy as [<-|[]]. reflexivity.
Qed.

Lemma NoDup_all_equal {A} (l : list A) :
  NoDup l -> (forall x y, In x l -> In y l -> x = y) -> length l <= 1.
Proof.
  destruct l as [|a [|b l]]; simpl; intros Hnd H; try lia.
  inversion Hnd as [|? ? Hab _]; subst. exfalso. apply Hab.
  left. apply H; auto.
Qed.

(** X10.  On distinct vendors no group is found exactly when no two of
    them have the same key. *)
Theorem no_groups_iff_keys_distinct (vendors : list str) :
  NoDup vendors ->
  (find_groups (extract_vendor_patterns vendors) = [] <->
   forall v w, In v vendors -> In w vendors ->
               normalize_vendor_base v = normalize_vendor_base w -> v = w).
Proof.
  intro Hnd. rewrite find_groups_nil, collect_groups_nil, extract_spec.
  rewrite Forall_map, Forall_forall. simpl. split.
  - intros H v w Hv Hw E.
    apply short_list_eq with (l := with_key (normalize_vendor_base v) vendors).
    + apply H. apply keys_of_In. now exists v.
    + now apply with_key_In.
    + now apply with_key_In.
  - intros H k _. apply NoDup_all_equal.
    + unfold with_key. now apply NoDup_filter.
    + intros x y Hx Hy. apply with_key_In in Hx as [Hx Ex], Hy as [Hy Ey].
      apply H; congruence.
Qed.

Lemma no_groups_iff_keys_distinct_witness :
  find_groups (extract_vendor_patterns ["SQ *A" : str; "TST*B" : str]) = [] <->
  forall v w, In v ["SQ *A" : str; "TST*B" : str] ->
              In w ["SQ *A" : str; "TST*B" : str] ->
              normalize_vendor_base v = normalize_vendor_base w -> v = w.
Proof.
  apply (@no_groups_iff_keys_distinct ["SQ *A" : str; "TST*B" : str]).
  repeat constructor; simpl; intuition discriminate.
Defined.

Lemma groups_take_two (patterns : list group) :
  2 * length (collect_groups patterns) <= length (concat (map snd patterns)).
Proof.
  induction patterns as [|[k variants] rest IH]; simpl; [lia|].
  rewrite length_app.
  destruct (Nat.ltb_spec 1 (length variants)); simpl; lia.
Qed.

(** X11.  There are at most half as many groups as vendors. *)
Theorem groups_at_most_half (vendors : list str) :
  2 * length (find_groups (extract_vendor_patterns vendors)) <= length vendors.
Proof.
  unfold find_groups, sorted_by_len_desc.
  rewrite (Permutation_length (insertion_sort_perm _ _)).
  rewrite <- (Permutation_length (extract_buckets_perm vendors)).
  apply groups_take_two.
Qed.

(** ** More about the two passes over the transactions *)

Lemma description_none t :
  description_or_empty t = VNone <-> Dict.get "Description" t = Some VNone.
Proof.
  unfold description_or_empty.
  destruct (Dict.get "Description" t) as [[|s]|]; split; intro H;
    try discriminate; reflexivity.
Qed.

Lemma raises_Exists transactions :
  existsb (fun t => match description_or_empty t with
                    | VNone => true
                    | VStr _ => false
                    end) transactions = true <->
  Exists (fun t => Dict.get "Description" t = Some VNone) transactions.
Proof.
  rewrite existsb_exists, Exists_exists.
  split; intros (t & Hin & H); exists t; (split; [assumption|]).
  - apply description_none. now destruct (description_or_empty t).
  - apply description_none in H. now rewrite H.
Qed.

Lemma descriptions_all transactions :
  existsb (fun t => match description_or_empty t with
                    | VNone => true
                    | VStr _ => false
                    end) transactions = false ->
  descriptions transactions =
  map (fun t => match Dict.get "Description" t with
                | Some (VStr s) => s
                | _ => ("" : str)
                end) transactions.
Proof.
  induction transactions as [|t rest IH]; [reflexivity|].
  unfold descriptions in *. cbn [existsb flat_map map].
  assert (Hd : match description_or_empty t with
               | VNone => True
               | VStr s => match Dict.get "Description" t with
                           | Some (VStr s') => s'
                           | _ => ("" : str)
                           end = s
               end).
  { unfold description_or_empty.
    now destruct (Dict.get "Description" t) as [[|s]|]. }
  destruct (description_or_empty t) as [|s]; cbn [orb app]; [discriminate|].
  intro H. now rewrite Hd, (IH H).
Qed.

Lemma total_count_keys (D : list str) ks :
  total_count (map (fun k => (k, length (with_key k D))) ks)
  = length (flat_map (fun k => with_key k D) ks).
Proof.
  induction ks as [|k ks IH]; simpl; [reflexivity|].
  now rewrite length_app, IH.
Qed.

(** X12.  The counting loop raises exactly when some row has the
    description [None] (a short row of the file); a row without the
    column and a row with an empty description do not make it raise. *)
Theorem merchant_counts_raises_iff (transactions : list row) :
  merchant_counts transactions = None <->
  Exists (fun t => Dict.get "Description" t = Some VNone) transactions.
Proof.
  rewrite <- raises_Exists, merchant_counts_spec.
  destruct (existsb _ transactions); split; intro H;
    try reflexivity; discriminate.
Qed.

(** X13.  When the loop does not raise, the counters are: one per key, in
    the order in which the keys first come up, each with the number of
    rows whose description (the empty string for a row without the
    column) has that key. *)
Theorem merchant_counts_counts (transactions : list row) (counts : Dict.t nat) :
  merchant_counts transactions = Some counts ->
  let described :=
    map (fun t => match Dict.get "Description" t with
                  | Some (VStr s) => s
                  | _ => ("" : str)
                  end) transactions in
  counts =
  map (fun k => (k, length (filter (fun s => str_eqb (normalize_vendor_base s) k)
                                   described)))
      (dedup (map normalize_vendor_base described)).
Proof.
  rewrite merchant_counts_spec.
  destruct (existsb _ transactions) eqn:E; [discriminate|].
  intro H. injection H as <-. cbv zeta.
  now rewrite <- (descriptions_all _ E).
Qed.

Lemma merchant_counts_counts_witness :
  [("BLUE BOTTLE COFFEE" : str, 1); ("" : str, 2)] =
  map (fun k => (k, length (filter
                              (fun s => str_eqb (normalize_vendor_base s) k)
                              ["SQ *BLUE BOTTLE COFFEE" : str; "" : str; "" : str])))
      (dedup (map normalize_vendor_base
                  ["SQ *BLUE BOTTLE COFFEE" : str; "" : str; "" : str])).
Proof.
  exact (@merchant_counts_counts
           [Rows.coffee; Rows.empty_description; Rows.no_column]
           [("BLUE BOTTLE COFFEE" : str, 1); ("" : str, 2)] eq_refl).
Defined.

(** X14.  When the loop does not raise, every row is counted once: the
    counters add up to the number of rows, no counter is zero, and no key
    has two counters. *)
Theorem merchant_counts_total (transactions : list row) (counts : Dict.t nat) :
  merchant_counts transactions = Some counts ->
  total_count counts = length transactions /\
  Forall (fun e => 1 <= snd e) counts /\
  NoDup (map fst counts).
Proof.
  rewrite merchant_counts_spec.
  destruct (existsb _ transactions) eqn:E; [discriminate|].
  intro H. injection H as <-. split; [|split].
  - rewrite total_count_keys.
    assert (P : Permutation
                  (flat_map (fun k => with_key k (descriptions transactions))
                            (keys_of (descriptions transactions)))
                  (descriptions transactions)).
    { apply buckets_partition; [apply dedup_NoDup|].
      intros v Hv. apply keys_of_In. now exists v. }
    rewrite (Permutation_length P).
    rewrite (descriptions_all _ E). apply length_map.
  - apply Forall_map, Forall_forall. intros k Hk. simpl.
    apply keys_of_In in Hk as (v & Hv & Ek).
    assert (Hin : In v (with_key k (descriptions transactions)))
      by now apply with_key_In.
    destruct (with_key k (descriptions transactions)); [contradiction|simpl; lia].
  - rewrite map_map. simpl. rewrite map_id. apply dedup_NoDup.
Qed.

Lemma merchant_counts_total_witness :
  total_count [("BLUE BOTTLE COFFEE" : str, 1); ("" : str, 2)] = 3 /\
  Forall (fun e : str * nat => 1 <= snd e)
         [("BLUE BOTTLE COFFEE" : str, 1); ("" : str, 2)] /\
  NoDup (map fst [("BLUE BOTTLE COFFEE" : str, 1); ("" : str, 2)]).
Proof.
  apply (@merchant_counts_total
           [Rows.coffee; Rows.empty_description; Rows.no_column]).
  reflexivity.
Defined.

(** X15.  The list of vendors has no string twice, and holds exactly the
    non-empty descriptions of the rows: [None], the empty string and a
    missing column give no vendor. *)
Theorem unique_vendors_spec (transactions : list row) :
  NoDup (unique_vendors transactions) /\
  forall s : str,
    In s (unique_vendors transactions) <->
    s <> [] /\ exists t, In t transactions /\
                         Dict.get "Description" t = Some (VStr s).
Proof.
  unfold unique_vendors. split; [apply dedup_NoDup|].
  intro s. rewrite dedup_In, in_flat_map. unfold has_description.
  split.
  - intros (t & Ht & Hs). destruct (Dict.get "Description" t) as [[|[|a d]]|] eqn:E;
      simpl in Hs; try contradiction.
    destruct Hs as [<-|[]]. split; [discriminate|]. now exists t.
  - intros (Hne & t & Ht & E). exists t. split; [assumption|]. rewrite E.
    destruct s as [|a d]; [contradiction|]. now left.
Qed.

(** ** The report *)

Lemma StronglySorted_app_inv {A} (R : A -> A -> Prop) l1 l2 :
  StronglySorted R (l1 ++ l2) ->
  StronglySorted R l1 /\ Forall (fun x => Forall (R x) l2) l1.
Proof.
  induction l1 as [|a l1 IH]; simpl; intro H.
  - split; constructor.
  - apply StronglySorted_inv in H as [H Ha]. apply IH in H as [H1 H2].
    apply Forall_app in Ha as [Ha1 Ha2]. split; constructor; assumption.
Qed.

Lemma sorted_by_count_desc_sorted items :
  StronglySorted (fun e1 e2 : str * nat => snd e2 <= snd e1)
                 (sorted_by_count_desc items).
Proof.
  unfold sorted_by_count_desc.
  eapply StronglySorted_impl; [|apply insertion_sort_strongly_sorted].
  - intros e1 e2 H. simpl in H. apply Nat.ltb_ge in H. exact H.
  - intros x y H. apply Nat.ltb_lt in H. apply Nat.ltb_ge. lia.
  - intros x y z Hxy Hyz. apply Nat.ltb_ge in Hxy, Hyz. apply Nat.ltb_ge. lia.
Qed.

Lemma top_merchants_incl counts e : In e (top_merchants counts) -> In e counts.
Proof.
  intro H. unfold top_merchants in H.
  eapply Permutation_in; [apply insertion_sort_perm|].
  rewrite <- (firstn_skipn 50). apply in_or_app. left. exact H.
Qed.

Lemma enumerate1_length {A} (l : list A) : length (enumerate1 l) = length l.
Proof.
  unfold enumerate1. rewrite length_combine, length_seq. apply Nat.min_id.
Qed.

Lemma map_fst_combine {A B} (l1 : list A) : forall l2 : list B,
  length l1 = length l2 -> map fst (combine l1 l2) = l1.
Proof.
  induction l1 as [|a l1 IH]; intros [|b l2] H; simpl in *;
    try reflexivity; try discriminate.
  f_equal. apply IH. lia.
Qed.

Lemma enumerate1_ranks {A} (l : list A) :
  map fst (enumerate1 l) = seq 1 (length l).
Proof. unfold enumerate1. apply map_fst_combine. apply length_seq. Qed.

Lemma enumerate1_In {A} (l : list A) i x : In (i, x) (enumerate1 l) -> In x l.
Proof. apply in_combine_r. Qed.

Lemma find_groups_two patterns :
  Forall (fun g : group => 2 <= length (snd g)) (find_groups patterns).
Proof.
  unfold find_groups.
  eapply Permutation_Forall; [symmetry; apply insertion_sort_perm|].
  rewrite collect_groups_eq. apply Forall_map. apply Forall_forall.
  intros [k variants] Hin. apply filter_In in Hin as [_ Hlen]. simpl in *.
  apply Nat.ltb_lt in Hlen.
  rewrite (Permutation_length (sorted_strs_perm variants)). lia.
Qed.

Lemma top_merchants_sorted counts :
  length (top_merchants counts) <= 50 /\
  StronglySorted (fun e1 e2 : str * nat => snd e2 <= snd e1)
                 (top_merchants counts).
Proof.
  unfold top_merchants. split; [apply firstn_le_length|].
  pose proof (sorted_by_count_desc_sorted counts) as S.
  rewrite <- (firstn_skipn 50) in S.
  now apply StronglySorted_app_inv in S.
Qed.

(** X16.  The merchants shown are the (at most) 50 with the highest
    counts, by falling count: none left out has more than one shown. *)
Theorem top_merchants_ranking (counts : Dict.t nat) :
  length (top_merchants counts) = Nat.min 50 (length counts) /\
  StronglySorted (fun e1 e2 : str * nat => snd e2 <= snd e1)
                 (top_merchants counts) /\
  exists rest,
    Permutation (top_merchants counts ++ rest) counts /\
    Forall (fun e => Forall (fun r : str * nat => snd r <= snd e) rest)
           (top_merchants counts).
Proof.
  unfold top_merchants.
  pose proof (sorted_by_count_desc_sorted counts) as S.
  rewrite <- (firstn_skipn 50) in S.
  apply StronglySorted_app_inv in S as [S1 S2].
  split; [|split; [exact S1|]].
  - rewrite length_firstn. f_equal.
    apply Permutation_length, insertion_sort_perm.
  - exists (skipn 50 (sorted_by_count_desc counts)). split; [|exact S2].
    rewrite firstn_skipn. apply insertion_sort_perm.
Qed.

Lemma variants_le_count transactions k :
  In k (keys_of (descriptions transactions)) ->
  1 <= length (variants_of (extract_vendor_patterns (unique_vendors transactions)) k)
  /\ length (variants_of (extract_vendor_patterns (unique_vendors transactions)) k)
     <= length (with_key k (descriptions transactions)).
Proof.
  intro Hk. unfold variants_of. rewrite extract_get.
  change (filter (fun v => str_eqb (normalize_vendor_base v) k)
                 (unique_vendors transactions))
    with (with_key k (unique_vendors transactions)).
  assert (Hpos : 1 <= length (with_key k (descriptions transactions))).
  { apply keys_of_In in Hk as (v & Hv & E).
    assert (Hin : In v (with_key k (descriptions transactions)))
      by now apply with_key_In.
    destruct (with_key k (descriptions transactions)); [contradiction|simpl; lia]. }
  destruct (with_key k (unique_vendors transactions)) as [|v l] eqn:E.
  - split; [simpl; lia|exact Hpos].
  - rewrite <- E. split; [rewrite E; simpl; lia|].
    apply NoDup_incl_length.
    + unfold with_key. apply NoDup_filter. unfold unique_vendors. apply dedup_NoDup.
    + intros s Hs. apply with_key_In in Hs as [Hs Es]. apply with_key_In.
      split; [|assumption].
      unfold unique_vendors in Hs. apply (proj1 (dedup_In _ _)) in Hs.
      apply in_flat_map in Hs as (t & Ht & Hs).
      unfold descriptions. apply in_flat_map. exists t. split; [assumption|].
      unfold has_description, description_or_empty in *.
      destruct (Dict.get "Description" t) as [[|[|a d]]|]; simpl in *;
        try contradiction; assumption.
Qed.

(** X17.  In the list of merchants of the report the ranks are 1, 2, ...
    up to at most 50, the counts fall, and every merchant has at least
    one variation and no more variations than transactions. *)
Theorem report_merchants_consistent (transactions : list row)
        (entries : list merchant_entry) :
  merchants_shown (analyze_vendor_data transactions) = Some entries ->
  length entries <= 50 /\
  map m_rank entries = seq 1 (length entries) /\
  StronglySorted (fun e1 e2 => m_count e2 <= m_count e1) entries /\
  Forall (fun e => 1 <= m_variations e /\ m_variations e <= m_count e) entries.
Proof.
  unfold analyze_vendor_data. cbn [merchants_shown].
  destruct (merchant_counts transactions) as [counts|] eqn:E; [|discriminate].
  intro H. injection H as <-. unfold merchant_entries.
  rewrite merchant_counts_spec in E.
  destruct (existsb _ transactions); [discriminate|]. injection E as E.
  rewrite length_map, enumerate1_length.
  destruct (top_merchants_sorted counts) as (Hlen & Hsorted).
  split; [lia|]. split; [|split].
  - rewrite map_map. cbn [m_rank]. apply enumerate1_ranks.
  - unfold enumerate1.
    set (top := top_merchants counts) in *. clearbody top. clear Hlen.
    generalize 1 as i. induction Hsorted as [|e top Hs IH He]; intro i; simpl.
    + constructor.
    + constructor; [apply IH|].
      clear IH Hs. revert He. generalize (S i) as j.
      induction top as [|e' top IH]; intros j He; simpl; constructor.
      * inversion He; subst. assumption.
      * inversion He; subst. now apply IH.
  - apply Forall_map, Forall_forall. intros [i [k n]] Hin. cbn.
    apply enumerate1_In, top_merchants_incl in Hin.
    rewrite <- E in Hin. apply in_map_iff in Hin as (k' & Ek & Hk).
    injection Ek as -> <-. now apply variants_le_count.
Qed.

Lemma report_merchants_consistent_witness :
  length Sample.merchants <= 50 /\
  map m_rank Sample.merchants = seq 1 (length Sample.merchants) /\
  StronglySorted (fun e1 e2 => m_count e2 <= m_count e1) Sample.merchants /\
  Forall (fun e => 1 <= m_variations e /\ m_variations e <= m_count e)
         Sample.merchants.
Proof.
  exact (@report_merchants_consistent Sample.ledger Sample.merchants eq_refl).
Defined.

(** X18.  In the list of groups of the report the ranks are 1, 2, ... up
    to at most 30; every group shown has at least two variations, of
    which the first ten are listed; and the line "... and K more" is there
    exactly when there are more than ten, with K the number not listed. *)
Theorem report_groups_consistent (transactions : list row) :
  length (groups_shown (analyze_vendor_data transactions))
  = Nat.min 30 (groups_found (analyze_vendor_data transactions)) /\
  map g_rank (groups_shown (analyze_vendor_data transactions))
  = seq 1 (length (groups_shown (analyze_vendor_data transactions))) /\
  Forall (fun e =>
            2 <= g_variations e /\
            length (g_listed e) = Nat.min 10 (g_variations e) /\
            match g_more e with
            | Some more => 10 < g_variations e /\
                           length (g_listed e) + more = g_variations e
            | None => g_variations e <= 10
            end)
         (groups_shown (analyze_vendor_data transactions)).
Proof.
  unfold analyze_vendor_data. cbn [groups_shown groups_found].
  set (groups := find_groups _).
  unfold group_entries. rewrite length_map, enumerate1_length, length_firstn.
  split; [reflexivity|]. split.
  - rewrite map_map. cbn [g_rank]. rewrite enumerate1_ranks.
    now rewrite length_firstn.
  - apply Forall_map, Forall_forall. intros [i [base variants]] Hin.
    cbn [g_variations g_listed g_more fst snd].
    apply enumerate1_In in Hin.
    assert (Hg : In (base, variants) groups).
    { rewrite <- (firstn_skipn 30 groups). apply in_or_app. now left. }
    pose proof (find_groups_two
                  (extract_vendor_patterns (unique_vendors transactions))) as H2.
    rewrite Forall_forall in H2. apply H2 in Hg. simpl in Hg.
    rewrite length_firstn. split; [assumption|]. split; [reflexivity|].
    destruct (Nat.ltb_spec 10 (length variants)); lia.
Qed.
